(** * GWpy [plot/plot.py]: axes grouping, grid layout and unit probe

    A shallow embedding of the policy layer of [gwpy.plot.plot]:
    [_group_axes_data], [_parse_xscale], [Plot._init_axes],
    [Plot.__init__] and [Plot.add_segments_bar], with the properties the
    specification states about them. *)

From Stdlib Require Import ZArith QArith.
From stdpp Require Import gmap strings list fin_maps.
Local Open Scope string_scope.
Local Open Scope list_scope.
Set Warnings "-register-all".

(** ** Exceptions and results *)

(** The exceptions the modelled code can raise. *)
Inductive exn :=
| ValueError_grid (naxes nrows ncols : nat)
    (* "cannot group data into {0} axes with a {1}x{2} grid" *)
| ValueError_location
    (* "Segments can only be positoned at 'top' or 'bottom'." *)
| AttributeError_append
    (* [out[-1].append(x)] on an object without [append] *)
| IndexError
    (* [out[-1]] on an empty list *)
| KeyError (key : string).
    (* [shared_with[sharex]] on an unknown key *)

Inductive result (A : Type) :=
| Ok (a : A)
| Raise (e : exn).
Arguments Ok {A} a.
Arguments Raise {A} e.

#[global] Instance result_bind : MBind result := λ A B k m,
  match m with
  | Ok a => k a
  | Raise e => Raise e
  end.

(** A [for] loop whose body may raise: the state is threaded left to right
    and the first exception ends the loop. *)
Fixpoint for_each {S X} (body : S → X → result S) (s : S) (xs : list X)
  : result S :=
  match xs with
  | [] => Ok s
  | x :: xs' => s' ← body s x; for_each body s' xs'
  end.

(** ** Data model *)

(** An astropy-like unit, as far as the probe reads it. *)
Record Unit := mkUnit { unit_name : string; physical_type : string }.

#[global] Instance Unit_eq_dec : EqDecision Unit.
Proof. solve_decision. Defined.

#[global] Instance Unit_countable : Countable Unit.
Proof.
  apply (inj_countable' (λ u, (unit_name u, physical_type u))
                        (λ p, mkUnit p.1 p.2)).
  by intros [].
Defined.

(** Identity of a caller-owned [list] object. *)
Definition loc := nat.

(** The objects a caller can hand to [Plot]: a singular data set (with its
    concrete type, its [xunit] attribute when it has one, and a payload
    telling objects apart), or one of the collections the code tests for.
    A [list] is mutable and is appended to in place by the grouping, so it
    is a reference into a store; the other collections are never mutated
    here and carry their items. *)
Inductive obj :=
| Data (ty : string) (xunit : option Unit) (payload : Z)
| PList (l : loc)
| PTuple (items : list obj)
| PKeysView (items : list obj)
| PValuesView (items : list obj)
| PDict (entries : list (string * obj)).

(** The store: the current items of every caller-owned list (an identity
    the store does not hold reads as the empty list). *)
Abbreviation store := (gmap loc (list obj)).

Inductive pytype :=
| TyData (name : string)
| TyList | TyTuple | TyKeysView | TyValuesView | TyDict.

#[global] Instance pytype_eq_dec : EqDecision pytype.
Proof. solve_decision. Defined.

(** [type(x)] *)
Definition type_of (x : obj) : pytype :=
  match x with
  | Data ty _ _ => TyData ty
  | PList _ => TyList
  | PTuple _ => TyTuple
  | PKeysView _ => TyKeysView
  | PValuesView _ => TyValuesView
  | PDict _ => TyDict
  end.

(** [iterable_types = (list, tuple, KeysView, ValuesView,)] *)
Definition iterable_types : list pytype :=
  [TyList; TyTuple; TyKeysView; TyValuesView].

(** [isinstance(x, types)] *)
Definition isinstance (x : obj) (types : list pytype) : bool :=
  bool_decide (type_of x ∈ types).

(** A singular input: neither a collection nor a mapping. *)
Definition singular (x : obj) : Prop :=
  isinstance x (iterable_types ++ [TyDict]) = false.

(** [hasattr(x, 'xunit')] and [x.xunit] *)
Definition xunit_of (x : obj) : option Unit :=
  match x with
  | Data _ u _ => u
  | _ => None
  end.

(** [list(x.values())]: the values of a mapping in insertion order. *)
Definition dict_values (entries : list (string * obj)) : list obj :=
  entries.*2.

(** ** [_group_axes_data] *)

(** One element of [out]: a list this function created (nothing else
    refers to it, so it carries its items), or an object of the caller
    appended as it is. *)
Inductive group :=
| Fresh (items : list obj)
| Given (x : obj).

(** Truth value of the [separate] argument ([None] is false). *)
Definition truthy (separate : option bool) : bool :=
  match separate with
  | Some b => b
  | None => false
  end.

(** The auto-separation block:
<<
    if separate is None and inputs:
        if any(isinstance(x, iterable_types + (dict,)) for x in inputs):
            separate = True
        elif not all(type(x) is type(inputs[0]) for x in inputs):
            separate = True
>> *)
Definition auto_separate (separate : option bool) (inputs : list obj)
  : option bool :=
  match separate, inputs with
  | None, x0 :: _ =>
      if existsb (λ x, isinstance x (iterable_types ++ [TyDict])) inputs
      then Some true
      else if negb (forallb (λ x, bool_decide (type_of x = type_of x0)) inputs)
      then Some true
      else None
  | _, _ => separate
  end.

(** Truth value of a list: false exactly when it is empty. *)
Definition not_empty {A} (l : list A) : bool :=
  match l with
  | [] => false
  | _ :: _ => true
  end.

(** [out[-1].append(x)]: a list made here grows; a list of the caller is
    mutated in the store; a tuple or a view has no [append]. *)
Definition append_to_last (h : store) (out : list group) (x : obj)
  : result (store * list group) :=
  match last out with
  | None => Raise IndexError
  | Some (Fresh items) => Ok (h, removelast out ++ [Fresh (items ++ [x])])
  | Some (Given (PList l)) => Ok (<[l := (h !!! l) ++ [x]]> h, out)
  | Some (Given _) => Raise AttributeError_append
  end.

(** The body of [for x in inputs]. *)
Definition group_step (separate : option bool) (st : store * list group)
  (x : obj) : result (store * list group) :=
  let '(h, out) := st in
  match x with
  | PDict entries =>
      (* unwrap dict; the new list is an instance of iterable_types *)
      Ok (h, out ++ [Fresh (dict_values entries)])
  | _ =>
      if isinstance x iterable_types then Ok (h, out ++ [Given x])
      else if truthy separate || negb (not_empty out) then
        Ok (h, out ++ [Fresh [x]])
      else append_to_last h out x
  end.

(** [_group_axes_data(inputs, separate)] with [flat=False]: the store
    after the call and the list [out]. *)
Definition _group_axes_data (h : store) (inputs : list obj)
  (separate : option bool) : result (store * list group) :=
  let separate := auto_separate separate inputs in
  for_each (group_step separate) (h, []) inputs.

(** The items of a group when it is iterated. *)
Definition contents (h : store) (g : group) : list obj :=
  match g with
  | Fresh items => items
  | Given (PList l) => h !!! l
  | Given (PTuple items) => items
  | Given (PKeysView items) => items
  | Given (PValuesView items) => items
  | Given _ => []
  end.

(** [_group_axes_data(inputs, separate, flat=True)]:
    [[s for group in out for s in group]]. *)
Definition _group_axes_data_flat (h : store) (inputs : list obj)
  (separate : option bool) : result (store * list obj) :=
  '(h', out) ← _group_axes_data h inputs separate;
  Ok (h', concat (contents h' <$> out)).

(** ** [_parse_xscale] *)

(** The loop [for x in data: if hasattr(x, 'xunit'): units.add(x.xunit)]. *)
Definition collect_units (data : list obj) : gset Unit :=
  foldl (λ units x,
           match xunit_of x with
           | Some u => {[u]} ∪ units
           | None => units
           end) ∅ data.

(** [_parse_xscale(data)]: a bare [return] and the end of the function
    answer [None]; [units.pop()] takes the one element of the set. *)
Definition _parse_xscale (data : list obj) : option string :=
  let units := collect_units data in
  if bool_decide (size units ≠ 1%nat) then None
  else
    match elements units with
    | unit :: _ =>
        if bool_decide (physical_type unit = "time")
        then Some "auto-gps"
        else None
    | [] => None
    end.

(** ** [Plot._init_axes] *)

(** The [sharex] / [sharey] argument: a [bool] or a string. *)
Inductive share_arg :=
| ShareBool (b : bool)
| ShareStr (key : string).

(** [if isinstance(sharex, bool): sharex = "all" if sharex else "none"] *)
Definition share_spec (a : share_arg) : string :=
  match a with
  | ShareBool b => if b then "all" else "none"
  | ShareStr key => key
  end.

(** An axis label of an axes: as the plotting call left it, or set since
    by [set_xlabel] / [set_ylabel]. *)
Inductive label :=
| Drawn
| SetTo (text : string).

(** An axes of the figure, as far as [_init_axes] determines it. Axes are
    identified by their index in [Figure.axes], the order of creation. *)
Record axes := mkAxes {
  ax_pos : nat * nat;           (* the grid cell [gs[row, col]] *)
  ax_sharex : option nat;       (* [axes_kw["sharex"]] *)
  ax_sharey : option nat;       (* [axes_kw["sharey"]] *)
  ax_xscale : option string;    (* [axes_kw['xscale']] *)
  ax_calls : list (list obj);   (* the data of each call of the plot method *)
  ax_xlabel : label;
  ax_ylabel : label;
}.

(** The objects drawn on an axes, in drawing order. *)
Definition drawn (ax : axes) : list obj := concat (ax_calls ax).

(** The object array [axarr]: a cell is [None] until an axes is stored. *)
Abbreviation axarray := (gmap (nat * nat) nat).

(** The dict
    [{"none": None, "all": axarr[0, 0], "row": axarr[row, 0],
      "col": axarr[0, col]}] *)
Definition shared_with (axarr : axarray) (row col : nat)
  : gmap string (option nat) :=
  <["none" := None]> (<["all" := axarr !! (0, 0)]>
    (<["row" := axarr !! (row, 0)]> (<["col" := axarr !! (0, col)]> ∅))).

(** Subscription of a dict. *)
Definition getitem {V} (d : gmap string V) (key : string) : result V :=
  match d !! key with
  | Some v => Ok v
  | None => Raise (KeyError key)
  end.

(** Truth value of the [xscale] argument: [None] and [''] are false. *)
Definition xscale_given (xscale : option string) : bool :=
  match xscale with
  | Some sc => negb (bool_decide (sc = ""))
  | None => false
  end.

(** The calls of the plot method for one group: once per object for the
    image-like methods, once with the whole group otherwise. *)
Definition plot_calls (method : string) (items : list obj)
  : list (list obj) :=
  if bool_decide (method ∈ ["imshow"; "pcolormesh"])
  then (λ o, [o]) <$> items
  else [items].

(** [sharex == 'all' and row < nrows - 1] (and the same for columns) *)
Definition clears_label (share : string) (i n : nat) : bool :=
  bool_decide (share = "all") && bool_decide (Z.of_nat i < Z.of_nat n - 1)%Z.

(** The body of the loop over [zip(axes_groups, product(...))]. *)
Definition axes_step (h : store) (method : string) (xscale : option string)
  (sharex sharey : string) (nrows ncols : nat)
  (st : axarray * list axes) (it : group * (nat * nat))
  : result (axarray * list axes) :=
  let '(axarr, fig_axes) := st in
  let '(grp, (row, col)) := it in
  let shared := shared_with axarr row col in
  sx ← getitem shared sharex;
  sy ← getitem shared sharey;
  let items := contents h grp in
  let ax := {|
    ax_pos := (row, col);
    ax_sharex := sx;
    ax_sharey := sy;
    ax_xscale := if xscale_given xscale then xscale else _parse_xscale items;
    ax_calls := plot_calls method items;
    ax_xlabel := if clears_label sharex row nrows then SetTo "" else Drawn;
    ax_ylabel := if clears_label sharey col ncols then SetTo "" else Drawn;
  |} in
  Ok (<[(row, col) := length fig_axes]> axarr, fig_axes ++ [ax]).

(** [itertools.product(range(nrows), range(ncols))] *)
Definition grid_positions (nrows ncols : nat) : list (nat * nat) :=
  row ← seq 0 nrows; col ← seq 0 ncols; [(row, col)].

(** The value of [separate] handed to the grouping. *)
Definition forced_separate (geometry : option (nat * nat)) (data : list obj)
  (separate : option bool) : option bool :=
  match geometry with
  | Some (r, c) =>
      if bool_decide (r * c = length data) then Some true else separate
  | None => separate
  end.

(** [_init_axes(data, method, xscale, sharex, sharey, geometry, separate)]
    on a figure without axes; the result is [self.axes]. Grid dimensions
    are natural numbers. *)
Definition _init_axes (h : store) (data : list obj) (method : string)
  (xscale : option string) (sharex sharey : share_arg)
  (geometry : option (nat * nat)) (separate : option bool)
  : result (list axes) :=
  let sharex := share_spec sharex in
  let sharey := share_spec sharey in
  let separate := forced_separate geometry data separate in
  '(h', axes_groups) ← _group_axes_data h data separate;
  let naxes := length axes_groups in
  let '(nrows, ncols) := default (naxes, 1) geometry in
  if bool_decide (nrows * ncols ≠ naxes)
  then Raise (ValueError_grid naxes nrows ncols)
  else
    '(_, fig_axes) ←
      for_each (axes_step h' method xscale sharex sharey nrows ncols)
               (∅, []) (zip axes_groups (grid_positions nrows ncols));
    Ok fig_axes.

(** ** [Plot.__init__] *)

(** [kwargs.setdefault(key, value)] on the entry of one key: [None] is an
    absent key. *)
Definition setdefault {V} (entry : option V) (value : V) : option V :=
  match entry with
  | Some _ => entry
  | None => Some value
  end.

(** The figure the constructor builds: the [figsize] keyword handed to
    the figure ([None]: the library's default) and the axes. *)
Record figure := mkFigure {
  fig_figsize : option (Q * Q);
  fig_axes : list axes;
}.

Section Plot.

(** [GPS_SCALES] is imported from [.gps] and is not part of this file. *)
Variable GPS_SCALES : list string.

(** [kwargs.get('xscale') in GPS_SCALES] *)
Definition is_gps_scale (entry : option (option string)) : bool :=
  match entry with
  | Some (Some sc) => bool_decide (sc ∈ GPS_SCALES)
  | _ => false
  end.

(** The constructor [Plot] on [data] and keywords: [kw_xscale], [kw_figsize] and [projection]
    are the entries of these keys in [kwargs]; the remaining arguments
    are those of [_init_axes]. *)
Definition Plot_init (h : store) (data : list obj)
  (kw_xscale : option (option string)) (kw_figsize : option (Q * Q))
  (projection : option string) (method : string)
  (sharex sharey : share_arg) (geometry : option (nat * nat))
  (separate : option bool) : result figure :=
  '(h1, flat) ← _group_axes_data_flat h data None;
  let kw_xscale := setdefault kw_xscale (_parse_xscale flat) in
  let wide :=
    bool_decide (projection = Some "segments") || is_gps_scale kw_xscale in
  let kw_figsize :=
    if wide then setdefault kw_figsize (12 # 1, 6 # 1)%Q else kw_figsize in
  let kw_xscale :=
    if wide then setdefault kw_xscale (Some "auto-gps") else kw_xscale in
  fig_axes ← _init_axes h1 data method (default None kw_xscale)
                        sharex sharey geometry separate;
  Ok (mkFigure kw_figsize fig_axes).

End Plot.

(** ** [Plot.add_segments_bar] *)

(** The [sharex] argument of [add_segments_bar]: [True], a false value,
  or an axes. *)
Inductive bar_sharex :=
| BarTrue
| BarFalse
| BarAxes (a : nat).

(** The calls [add_segments_bar] makes on the plotting library, in order. *)
Inductive event :=
| Gca
| GetAxesLocator (ax : nat)
| MakeAxesLocatable (ax : nat)
| AppendAxes (ax : nat) (location : string) (height pad : Q)
           (sharex : option nat)
| SetAutoscalexOn (segax ax : nat)
| SetXlim (segax ax : nat)
| HideXTickLabels (ax : nat)
| SetXLabel (ax : nat) (text : string)
| PlotSegments (segax : nat)
| GridOff (segax : nat)
| Autoscale (segax : nat).


Section SegmentsBar.

(** What the library answers: the current axes of the figure, whether
    an axes already has a locator, and the identity of the axes the
    divider creates. *)
Variable gca : nat.
Variable has_locator : nat → bool.
Variable new_axes : nat.

(** [add_segments_bar(segments, ax, height, pad, sharex, location)]:
    the library calls made and the outcome. *)
Definition add_segments_bar (ax : option nat) (height pad : Q)
  (sharex : bar_sharex) (location : string) : list event * result nat :=
  (* get axes to anchor against *)
  let '(t1, ax) :=
    match ax with
    | Some a => ([], a)
    | None => ([Gca], gca)
    end in
  (* add new axes *)
  let t2 :=
    if has_locator ax then [GetAxesLocator ax; GetAxesLocator ax]
    else [GetAxesLocator ax; MakeAxesLocatable ax] in
  if negb (bool_decide (location ∈ ["top"; "bottom"])) then
    (t1 ++ t2, Raise ValueError_location)
  else
    let kw_sharex :=
      match sharex with
      | BarTrue => Some ax
      | BarFalse => None
      | BarAxes a => Some a
      end in
    let segax := new_axes in
    let t3 := [AppendAxes ax location height pad kw_sharex] in
    (* update anchor axes *)
    let t4 :=
      if bool_decide (kw_sharex = Some ax)
      then [SetAutoscalexOn segax ax; SetXlim segax ax;
            HideXTickLabels ax; SetXLabel ax ""]
      else [] in
    (* plot segments *)
    let t5 := [PlotSegments segax; GridOff segax; Autoscale segax] in
    (t1 ++ t2 ++ t3 ++ t4 ++ t5, Ok segax).

End SegmentsBar.

(** ** [Plot._parse_subplotpars] *)

Section SubplotPars.

(** The values of the keywords, the [rcParams] of GWpy and the defaults
    of matplotlib ([MPL_RCPARAMS]) are those of the plotting library;
    [get_subplot_params] is imported from [.rc]. None is part of this
    file. *)
Variable value : Type.
Context `{EqDecision value}.
Variable rcParams : string → value.
Variable MPL_RCPARAMS : string → value.
Variable get_subplot_params : value → value.

(** [_parse_subplotpars(kwargs)]: the dict [kwargs] after the call. *)
Definition _parse_subplotpars (kwargs : gmap string value)
  : gmap string value :=
  let figsize := default (rcParams "figure.figsize") (kwargs !! "figsize") in
  let subplotpars := get_subplot_params figsize in
  let use_subplotpars :=
    bool_decide (kwargs !! "subplotpars" = None)
    && forallb (λ pos, bool_decide (rcParams ("figure.subplot." +:+ pos)
                                    = MPL_RCPARAMS ("figure.subplot." +:+ pos)))
               ["left"; "bottom"; "right"; "top"] in
  if use_subplotpars then <["subplotpars" := subplotpars]> kwargs
  else kwargs.

End SubplotPars.

(** ** [Plot.close] *)

(** The calls [close] makes on the axes and on [pyplot]. *)
Inductive close_event :=
| SetXscale (ax : nat) (scale : string)
| SetYscale (ax : nat) (scale : string)
| Cla (ax : nat)
| PyplotClose.

(** [close()] on a figure whose [axes] are [fig_axes]: the loop runs over
    [self.axes[::-1]]. *)
Definition close (fig_axes : list nat) : list close_event :=
  (ax ← reverse fig_axes;
   [SetXscale ax "linear"; SetYscale ax "linear"; Cla ax])
  ++ [PyplotClose].

(** ** [Plot.get_axes] *)

Section GetAxes.

(** [str.lower] is Python's; the axes and their [name] attribute are the
    plotting library's. *)
Variable lower : string → string.
Variable Axes : Type.
Variable name : Axes → string.

(** [get_axes(projection)] on a figure whose [axes] are [fig_axes]. *)
Definition get_axes (fig_axes : list Axes) (projection : option string)
  : list Axes :=
  match projection with
  | None => fig_axes
  | Some p => filter (λ ax, name ax = lower p) fig_axes
  end.

End GetAxes.

(** ** [Plot.colorbar] *)

(** A mappable, as far as [colorbar] reads and writes it: its colour
    normalisation and colour map, and a payload telling layers apart. *)
Record mappable := mkMappable {
  m_norm : nat;
  m_cmap : nat;
  m_layer : nat;
}.

(** The layers of an axes: [ax.collections] and [ax.images]. *)
Record layers := mkLayers {
  collections : list mappable;
  images : list mappable;
}.

(** [map_.set_norm(norm); map_.set_cmap(cmap)] *)
Definition set_colours (norm cmap : nat) (m : mappable) : mappable :=
  {| m_norm := norm; m_cmap := cmap; m_layer := m_layer m |}.

(** [colorbar(...)] after [process_colorbar_kwargs] (imported from
    [.colorbar], not part of this file) has answered the mappable and the
    keywords, of which [kw_ax] is the entry of the key ['ax'], and
    [Figure.colorbar] has answered the colorbar [cbar]. The state is the
    list [self.colorbars] and the layers of that axes; it is returned
    with the outcome, as an exception leaves it as it then is. *)
Definition colorbar (colorbars : list nat) (m : mappable)
  (kw_ax : option layers) (cbar : nat) (emit : bool)
  : list nat * option layers * result nat :=
  let colorbars := colorbars ++ [cbar] in
  if emit then
    match kw_ax with
    | None => (colorbars, kw_ax, Raise (KeyError "ax"))
    | Some ax =>
        let norm := m_norm m in
        let cmap := m_cmap m in
        (colorbars,
         Some {| collections := set_colours norm cmap <$> collections ax;
                 images := set_colours norm cmap <$> images ax |},
         Ok cbar)
    end
  else (colorbars, kw_ax, Ok cbar).

(** ** Sample data *)

Definition second : Unit := mkUnit "s" "time".
Definition hertz : Unit := mkUnit "Hz" "frequency".

(** The integers [1], [2], [3]. *)
Definition int (n : Z) : obj := Data "int" None n.

(** A time series and a frequency series, numbered to tell them apart. *)
Definition timeseries (n : Z) : obj := Data "TimeSeries" (Some second) n.
Definition frequencyseries (n : Z) : obj :=
  Data "FrequencySeries" (Some hertz) n.

(** Lower case of ASCII letters, standing for [str.lower] on ASCII
    names. *)
Definition lower_ascii (c : Ascii.ascii) : Ascii.ascii :=
  let n := Ascii.nat_of_ascii c in
  if (Nat.leb 65 n) && (Nat.leb n 90) then Ascii.ascii_of_nat (n + 32) else c.

Fixpoint lower_string (s : string) : string :=
  match s with
  | EmptyString => EmptyString
  | String c s' => String (lower_ascii c) (lower_string s')
  end.

(** ** Vocabulary of the properties *)

(** The calls that hide the x tick labels or set the x-axis label of an
    axes. *)
Definition hides_xlabels (e : event) : bool :=
  match e with
  | HideXTickLabels _ | SetXLabel _ _ => true
  | _ => false
  end.

(** The group an input makes when nothing is joined to the previous one. *)
Definition own_group (x : obj) : group :=
  match x with
  | PDict entries => Fresh (dict_values entries)
  | Data _ _ _ => Fresh [x]
  | _ => Given x
  end.

(** All inputs have the concrete type of the first. *)
Definition same_type (inputs : list obj) : Prop :=
  ∀ x y, x ∈ inputs → y ∈ inputs → type_of x = type_of y.

(** The array after the axes numbered [n], [n+1], ... were stored at the
    positions [ps], in this order. *)
Fixpoint fill (axarr : axarray) (n : nat) (ps : list (nat * nat)) : axarray :=
  match ps with
  | [] => axarr
  | p :: ps' => fill (<[p := n]> axarr) (S n) ps'
  end.

(** What one turn of the loop decides about the axes it creates, given
    the array [axarr] at that time. *)
Definition axes_created (h : store) (method : string)
  (xscale : option string) (sharex sharey : string) (nrows ncols : nat)
  (axarr : axarray) (grp : group) (row col : nat) (ax : axes) : Prop :=
  ax_pos ax = (row, col)
  ∧ getitem (shared_with axarr row col) sharex = Ok (ax_sharex ax)
  ∧ getitem (shared_with axarr row col) sharey = Ok (ax_sharey ax)
  ∧ ax_xscale ax = (if xscale_given xscale then xscale
                    else _parse_xscale (contents h grp))
  ∧ ax_calls ax = plot_calls method (contents h grp)
  ∧ ax_xlabel ax = (if clears_label sharex row nrows then SetTo "" else Drawn)
  ∧ ax_ylabel ax = (if clears_label sharey col ncols then SetTo "" else Drawn).

(** The keys of the table of shared axes. *)
Definition share_keys : list string := ["none"; "all"; "row"; "col"].

(** The axes number [i], standing at [self], shares with the axes at
    [target]: the value [s] of its [sharex] / [sharey] keyword is the
    axes created before it at [target]; the axes at [target] itself finds
    the cell still empty and shares with nothing. *)
Definition shares_with (fig_axes : list axes) (i : nat)
  (self target : nat * nat) (s : option nat) : Prop :=
  if decide (self = target) then s = None
  else ∃ j a, s = Some j ∧ j < i ∧ fig_axes !! j = Some a ∧ ax_pos a = target.

(** The resolution table of one axis. *)
Definition share_resolved (fig_axes : list axes) (i : nat) (spec : string)
  (self : nat * nat) (s : option nat) : Prop :=
  (spec = "none" ∧ s = None)
  ∨ (spec = "all" ∧ shares_with fig_axes i self (0, 0) s)
  ∨ (spec = "row" ∧ shares_with fig_axes i self (self.1, 0) s)
  ∨ (spec = "col" ∧ shares_with fig_axes i self (0, self.2) s).

(** A collection without [append]: a tuple or a view of a mapping. *)
Definition immutable_collection (x : obj) : Prop :=
  isinstance x [TyTuple; TyKeysView; TyValuesView] = true.

(** Between two turns of the grouping loop: when the group made last is
    an object of the caller, it is a list, or it is the input read last
    and has no [append]. *)
Definition last_group_is_last_input (processed : list obj)
  (out : list group) : Prop :=
  ∀ x, last out = Some (Given x) →
       (∃ l, x = PList l)
       ∨ (immutable_collection x ∧ last processed = Some x).

(** The singular inputs at the head of a list: those up to the first
    collection or mapping. *)
Fixpoint leading_singular (inputs : list obj) : list obj :=
  match inputs with
  | [] => []
  | x :: inputs' =>
      if isinstance x (iterable_types ++ [TyDict]) then []
      else x :: leading_singular inputs'
  end.

(** The outcome of a grouping run, with the groups [before] put in front
    of the groups it made. *)
Definition prepend (before : list group) (r : result (store * list group))
  : result (store * list group) :=
  '(h, out) ← r; Ok (h, before ++ out).

(** * Properties *)

(** ** The grouping loop *)

Lemma bind_Ok {A B} (a : A) (k : A → result B) : Ok a ≫= k = k a.
Proof. done. Qed.

Lemma bind_Raise {A B} e (k : A → result B) : Raise e ≫= k = Raise e.
Proof. done. Qed.

Lemma for_each_cons {S X} (body : S → X → result S) s x (xs : list X) :
  for_each body s (x :: xs) = s' ← body s x; for_each body s' xs.
Proof. done. Qed.

Lemma for_each_app {S X} (body : S → X → result S) s (xs ys : list X) :
  for_each body s (xs ++ ys) = s' ← for_each body s xs; for_each body s' ys.
Proof.
  revert s. induction xs as [|x xs IH]; intros s; simpl; [done|].
  destruct (body s x) as [s'|e]; simpl; [apply IH|done].
Qed.

Lemma singular_Data x : singular x ↔ ∃ ty u n, x = Data ty u n.
Proof.
  split.
  - destruct x; intros H; try discriminate H. eauto.
  - by intros (ty & u & n & ->).
Qed.

Lemma isinstance_iterable_singular x :
  singular x → isinstance x iterable_types = false.
Proof. intros (ty & u & n & ->)%singular_Data. done. Qed.

Lemma group_step_separate sep h out x :
  truthy sep = true →
  group_step sep (h, out) x = Ok (h, out ++ [own_group x]).
Proof. intros Hsep. destruct x; simpl; rewrite ?Hsep; done. Qed.

Lemma group_loop_separate sep h out inputs :
  truthy sep = true →
  for_each (group_step sep) (h, out) inputs
  = Ok (h, out ++ (own_group <$> inputs)).
Proof.
  intros Hsep. revert out.
  induction inputs as [|x inputs IH]; intros out.
  - by rewrite app_nil_r.
  - rewrite for_each_cons, group_step_separate, bind_Ok by done.
    rewrite IH, <- app_assoc. done.
Qed.

(** A singular input joins the group made last by this call. *)
Lemma group_step_join sep h out items x :
  truthy sep = false → singular x →
  group_step sep (h, out ++ [Fresh items]) x
  = Ok (h, out ++ [Fresh (items ++ [x])]).
Proof.
  intros Hsep (ty & u & n & ->)%singular_Data. simpl. rewrite Hsep. simpl.
  assert (not_empty (out ++ [Fresh items]) = true) as ->
    by by destruct out.
  unfold append_to_last. rewrite last_snoc, removelast_last. done.
Qed.

Lemma group_loop_join sep h out items inputs :
  truthy sep = false → Forall singular inputs →
  for_each (group_step sep) (h, out ++ [Fresh items]) inputs
  = Ok (h, out ++ [Fresh (items ++ inputs)]).
Proof.
  intros Hsep Hall. revert items.
  induction Hall as [|x inputs Hx _ IH]; intros items.
  - by rewrite app_nil_r.
  - rewrite for_each_cons, group_step_join, bind_Ok by done.
    rewrite IH, <- app_assoc. done.
Qed.

Lemma auto_separate_singular inputs :
  Forall singular inputs → same_type inputs →
  auto_separate None inputs = None.
Proof.
  intros Hall Hty. destruct inputs as [|x0 inputs]; [done|].
  unfold auto_separate.
  assert (existsb (λ x, isinstance x (iterable_types ++ [TyDict]))
                  (x0 :: inputs) = false) as ->.
  { apply not_true_is_false. intros (x & Hin & Hx)%existsb_exists.
    apply list_elem_of_In in Hin.
    rewrite Forall_forall in Hall. specialize (Hall x Hin).
    unfold singular in Hall. congruence. }
  assert (forallb (λ x, bool_decide (type_of x = type_of x0))
                  (x0 :: inputs) = true) as ->.
  { apply forallb_forall. intros x Hin%list_elem_of_In.
    apply bool_decide_eq_true. apply Hty; [done|]. apply list_elem_of_here. }
  done.
Qed.

Lemma auto_separate_given b inputs :
  auto_separate (Some b) inputs = Some b.
Proof. by destruct inputs. Qed.

Lemma existsb_collection inputs :
  existsb (λ x, isinstance x (iterable_types ++ [TyDict])) inputs = true
  ↔ Exists (λ x, ¬ singular x) inputs.
Proof.
  rewrite existsb_exists, Exists_exists. unfold singular.
  split; intros (x & Hin & Hx); exists x.
  - split; [by apply list_elem_of_In|congruence].
  - split; [by apply list_elem_of_In|by apply not_false_is_true].
Qed.

Lemma forallb_same_type x0 inputs :
  forallb (λ x, bool_decide (type_of x = type_of x0)) (x0 :: inputs) = true
  ↔ same_type (x0 :: inputs).
Proof.
  rewrite forallb_forall. split.
  - intros H x y Hx%list_elem_of_In Hy%list_elem_of_In.
    apply H, bool_decide_eq_true in Hx. apply H, bool_decide_eq_true in Hy.
    congruence.
  - intros H x Hx%list_elem_of_In. apply bool_decide_eq_true.
    apply H; [done|apply list_elem_of_here].
Qed.

(** When the inference sets [separate]: some input is a collection or a
    mapping, or the inputs are not all of one concrete type. *)
Lemma auto_separate_true inputs :
  auto_separate None inputs = Some true
  ↔ Exists (λ x, ¬ singular x) inputs ∨ ¬ same_type inputs.
Proof.
  destruct inputs as [|x0 inputs].
  { split; [done|]. intros [H%Exists_nil|H]; [done|].
    destruct H. intros x y Hx. by apply not_elem_of_nil in Hx. }
  unfold auto_separate.
  rewrite <- existsb_collection, <- forallb_same_type.
  destruct (existsb _ _); [by split; auto|].
  destruct (forallb _ _); simpl.
  - split; [done|]. intros [?|H]; [done|by destruct H].
  - split; [|done]. intros _. right. done.
Qed.

Lemma auto_separate_None_cases inputs :
  auto_separate None inputs = Some true ∨ auto_separate None inputs = None.
Proof.
  destruct inputs as [|x0 inputs]; [by right|]. unfold auto_separate.
  destruct (existsb _ _); [by left|]. destruct (forallb _ _); by auto.
Qed.

(** With [separate] true after the inference, every input makes a group
    of its own and no list of the caller is touched. *)
Lemma group_axes_data_separated h inputs sep :
  truthy (auto_separate sep inputs) = true →
  _group_axes_data h inputs sep = Ok (h, own_group <$> inputs).
Proof.
  intros Hsep. unfold _group_axes_data.
  by rewrite group_loop_separate.
Qed.

Lemma own_group_singular inputs :
  Forall singular inputs →
  own_group <$> inputs = (λ x, Fresh [x]) <$> inputs.
Proof.
  induction 1 as [|x inputs Hx _ IH]; [done|]. cbn [fmap list_fmap].
  apply singular_Data in Hx as (ty & u & n & ->). simpl. f_equal. apply IH.
Qed.

(** One group for singular inputs of one type. *)
Lemma group_axes_data_single_group h inputs :
  inputs ≠ [] → Forall singular inputs → same_type inputs →
  _group_axes_data h inputs None = Ok (h, [Fresh inputs]).
Proof.
  intros Hne Hall Hty. unfold _group_axes_data.
  rewrite auto_separate_singular by done.
  destruct inputs as [|x inputs]; [done|].
  apply Forall_cons in Hall as [Hx Hall].
  rewrite for_each_cons.
  apply singular_Data in Hx as (ty & u & n & ->). simpl.
  apply (group_loop_join None h [] [Data ty u n] inputs); done.
Qed.

(** C2: for every non-empty list of singular inputs of one concrete type,
    [_group_axes_data] with [separate] unspecified returns exactly one
    group holding all the inputs in their order (and leaves the store as
    it was); the inference sets [separate] to true exactly when some input
    is a collection or a mapping, or the inputs are not all of one
    concrete type. *)
Theorem C2_same_type_single_group :
  (∀ h inputs,
     inputs ≠ [] → Forall singular inputs → same_type inputs →
     _group_axes_data h inputs None = Ok (h, [Fresh inputs]))
  ∧ (∀ inputs,
       auto_separate None inputs = Some true
       ↔ Exists (λ x, ¬ singular x) inputs ∨ ¬ same_type inputs).
Proof.
  split; [apply group_axes_data_single_group|apply auto_separate_true].
Qed.

Lemma C2_same_type_single_group_witness :
  [int 1; int 2] ≠ []
  ∧ Forall singular [int 1; int 2]
  ∧ same_type [int 1; int 2]
  ∧ _group_axes_data ∅ [int 1; int 2] None = Ok (∅, [Fresh [int 1; int 2]]).
Proof.
  assert ([int 1; int 2] ≠ []) as Hne by done.
  assert (Forall singular [int 1; int 2]) as Hall by (repeat constructor).
  assert (same_type [int 1; int 2]) as Hty.
  { intros x y Hx%list_elem_of_In Hy%list_elem_of_In. simpl in *.
    intuition subst; done. }
  split; [exact Hne|]. split; [exact Hall|]. split; [exact Hty|].
  exact (proj1 C2_same_type_single_group ∅ [int 1; int 2] Hne Hall Hty).
Defined.

(** C8: for every list of singular inputs, [_group_axes_data] with
    [separate=True] returns one group per input, each holding exactly
    that input, in the order of the inputs. *)
Theorem C8_separate_one_group_each h inputs :
  Forall singular inputs →
  _group_axes_data h inputs (Some true)
  = Ok (h, (λ x, Fresh [x]) <$> inputs).
Proof.
  intros Hall. rewrite group_axes_data_separated.
  - by rewrite own_group_singular.
  - by rewrite auto_separate_given.
Qed.

Lemma C8_separate_one_group_each_witness :
  Forall singular [int 1; int 2]
  ∧ _group_axes_data ∅ [int 1; int 2] (Some true)
    = Ok (∅, [Fresh [int 1]; Fresh [int 2]]).
Proof.
  assert (Forall singular [int 1; int 2]) as Hall by (repeat constructor).
  split; [done|].
  exact (C8_separate_one_group_each ∅ [int 1; int 2] Hall).
Defined.

Lemma auto_separate_None_singular inputs :
  auto_separate None inputs = None → Forall singular inputs ∧ same_type inputs.
Proof.
  intros Hnone.
  assert (¬ (Exists (λ x, ¬ singular x) inputs ∨ ¬ same_type inputs)) as Hno.
  { rewrite <- auto_separate_true, Hnone. done. }
  split.
  - apply Forall_forall. intros x Hx.
    destruct (decide (isinstance x (iterable_types ++ [TyDict]) = false))
      as [|Hns]; [done|].
    destruct Hno. left. apply Exists_exists. eauto.
  - destruct inputs as [|x0 inputs].
    { intros x y Hx. by apply not_elem_of_nil in Hx. }
    apply forallb_same_type. apply not_false_is_true. intros Hty.
    apply Hno. right. by rewrite <- forallb_same_type, Hty.
Qed.

(** With [separate] unspecified the grouping never raises and never
    touches a list of the caller. *)
Lemma group_axes_data_unspecified_returns h inputs :
  ∃ out, _group_axes_data h inputs None = Ok (h, out).
Proof.
  destruct (auto_separate_None_cases inputs) as [Hsep|Hsep].
  - exists (own_group <$> inputs). apply group_axes_data_separated.
    by rewrite Hsep.
  - apply auto_separate_None_singular in Hsep as [Hall Hty].
    destruct inputs as [|x inputs]; [by exists []|].
    exists [Fresh (x :: inputs)].
    by apply group_axes_data_single_group.
Qed.

Lemma group_axes_data_flat_returns h inputs :
  ∃ flat, _group_axes_data_flat h inputs None = Ok (h, flat).
Proof.
  unfold _group_axes_data_flat.
  destruct (group_axes_data_unspecified_returns h inputs) as [out ->].
  by eexists.
Qed.

(** The examples of the docstring. *)
Example group_axes_data_doc_1 :
  _group_axes_data ∅ [int 1; int 2] (Some false)
  = Ok (∅, [Fresh [int 1; int 2]]).
Proof. reflexivity. Qed.

Example group_axes_data_doc_2 :
  _group_axes_data ∅ [int 1; int 2] (Some true)
  = Ok (∅, [Fresh [int 1]; Fresh [int 2]]).
Proof. reflexivity. Qed.

Example group_axes_data_doc_3 :
  ∃ h out,
    _group_axes_data {[0 := [int 1; int 2]]} [PList 0; int 3] None
    = Ok (h, out)
    ∧ contents h <$> out = [[int 1; int 2]; [int 3]].
Proof. eexists _, _. split; reflexivity. Qed.

(** ** Mapping inputs *)

Lemma auto_separate_collection sep inputs x :
  x ∈ inputs → ¬ singular x → sep ≠ Some false →
  truthy (auto_separate sep inputs) = true.
Proof.
  intros Hin Hx Hsep. destruct sep as [[]|].
  - by rewrite auto_separate_given.
  - done.
  - assert (auto_separate None inputs = Some true) as ->; [|done].
    apply auto_separate_true. left. apply Exists_exists. eauto.
Qed.

(** A step of the loop changes [out] at its last group or after it. *)
Lemma group_step_prefix sep h init g x h' out' :
  group_step sep (h, init ++ [g]) x = Ok (h', out') →
  ∃ tl, out' = init ++ tl ∧ tl ≠ [].
Proof.
  assert (∀ y, Ok (h, (init ++ [g]) ++ [y]) = Ok (h', out') →
               ∃ tl, out' = init ++ tl ∧ tl ≠ []) as Hpush.
  { intros y [= <- <-]. exists [g; y]. by rewrite <- app_assoc. }
  assert (append_to_last h (init ++ [g]) x = Ok (h', out') →
          ∃ tl, out' = init ++ tl ∧ tl ≠ []) as Happend.
  { unfold append_to_last. rewrite last_snoc, removelast_last.
    destruct g as [items|[]]; intros [= <- <-]; eauto. }
  unfold group_step. destruct x; try apply Hpush.
  simpl. destruct (truthy sep || _); [apply Hpush|apply Happend].
Qed.

Lemma group_loop_prefix sep inputs h init tl h' out' :
  tl ≠ [] →
  for_each (group_step sep) (h, init ++ tl) inputs = Ok (h', out') →
  ∃ tl', out' = init ++ tl' ∧ tl' ≠ [].
Proof.
  revert h tl. induction inputs as [|x inputs IH]; intros h tl Htl.
  { intros [= <- <-]. eauto. }
  rewrite for_each_cons.
  destruct (exists_last Htl) as (tl0 & g & ->).
  rewrite app_assoc.
  destruct (group_step _ _ _) as [[h1 out1]|e] eqn:Hstep; [|done].
  apply group_step_prefix in Hstep as (tl1 & -> & Htl1).
  rewrite bind_Ok, <- app_assoc. apply IH.
  by destruct tl0.
Qed.

(** The group a mapping opened receives the singular inputs that follow
    it directly, and nothing else. *)
Lemma group_loop_after_fresh sep post h out1 items h' out :
  for_each (group_step sep) (h, out1 ++ [Fresh items]) post = Ok (h', out) →
  ∃ rest out2,
    out = out1 ++ Fresh (items ++ rest) :: out2
    ∧ rest `prefix_of` post ∧ Forall singular rest
    ∧ (truthy sep = true → rest = []).
Proof.
  revert items. induction post as [|x post IH]; intros items.
  { intros [= <- <-]. exists [], []. rewrite app_nil_r.
    split; [done|]. split; [done|]. by split. }
  rewrite for_each_cons.
  destruct (truthy sep) eqn:Hsep.
  - rewrite group_step_separate, bind_Ok by done. intros Hloop.
    apply (group_loop_prefix sep post h (out1 ++ [Fresh items])
             [own_group x]) in Hloop as (tl & -> & _); [|done].
    exists [], tl. rewrite app_nil_r, <- app_assoc.
    split; [done|]. split; [apply prefix_nil|]. by split.
  - destruct (decide (isinstance x (iterable_types ++ [TyDict]) = false))
      as [Hx|Hx].
    + rewrite group_step_join, bind_Ok by done. intros Hloop.
      apply IH in Hloop as (rest & out2 & -> & Hpre & Hall & _).
      exists (x :: rest), out2. rewrite <- app_assoc.
      split; [done|]. split; [by apply prefix_cons|].
      split; [by constructor|done].
    + destruct (group_step sep (h, out1 ++ [Fresh items]) x)
        as [[h1 out'] |e] eqn:Hstep; [|done].
      assert (h1 = h ∧ out' = (out1 ++ [Fresh items]) ++ [own_group x])
        as [-> ->].
      { destruct x; try done; simpl in Hstep; by injection Hstep as <- <-. }
      rewrite bind_Ok. intros Hloop.
      apply (group_loop_prefix sep post h (out1 ++ [Fresh items])
               [own_group x]) in Hloop as (tl & -> & _); [|done].
      exists [], tl. rewrite app_nil_r, <- app_assoc.
      split; [done|]. split; [apply prefix_nil|]. by split.
Qed.

Lemma leading_singular_drop post :
  leading_singular post ++ drop (length (leading_singular post)) post = post.
Proof.
  induction post as [|x post IH]; [done|]. cbn.
  destruct (isinstance x _); [done|]. cbn. by rewrite IH.
Qed.

Lemma leading_singular_Forall post : Forall singular (leading_singular post).
Proof.
  induction post as [|x post IH]; [constructor|]. cbn.
  destruct (isinstance x _) eqn:Hx; by constructor.
Qed.

(** What follows the leading singular inputs is empty or begins with a
    collection or a mapping. *)
Lemma leading_singular_rest post :
  match drop (length (leading_singular post)) post with
  | [] => True
  | y :: _ => ¬ singular y
  end.
Proof.
  induction post as [|x post IH]; [done|]. cbn [leading_singular].
  destruct (isinstance x (iterable_types ++ [TyDict])) eqn:Hx.
  - cbn [length drop]. unfold singular. by rewrite Hx.
  - cbn [length drop]. exact IH.
Qed.

(** A collection or a mapping opens a group whatever was grouped before. *)
Lemma group_step_opens sep h out y :
  ¬ singular y → group_step sep (h, out) y = Ok (h, out ++ [own_group y]).
Proof. intros Hy. by destruct y. Qed.

(** The groups before the one made last do not bear on a turn of the
    loop. *)
Lemma group_step_frame sep h before out x :
  out ≠ [] →
  group_step sep (h, before ++ out) x
  = prepend before (group_step sep (h, out) x).
Proof.
  intros Hout. destruct (exists_last Hout) as (out0 & g & ->).
  assert (∀ y, Ok (h, (before ++ out0 ++ [g]) ++ [y])
               = prepend before (Ok (h, (out0 ++ [g]) ++ [y]))) as Hpush.
  { intros y. cbn. by rewrite <- !app_assoc. }
  destruct x; try apply Hpush. cbn [group_step].
  assert (isinstance (Data ty xunit payload) iterable_types = false) as ->
    by done.
  assert (not_empty (before ++ out0 ++ [g]) = true) as ->
    by (destruct before; [by destruct out0|done]).
  assert (not_empty (out0 ++ [g]) = true) as -> by by destruct out0.
  destruct (truthy sep); cbn [negb orb]; [apply Hpush|].
  unfold append_to_last.
  rewrite (app_assoc before), !last_snoc, !removelast_last.
  destruct g as [items|[]]; cbn; try done; by rewrite <- !app_assoc.
Qed.

Lemma group_loop_frame sep before inputs :
  ∀ h out,
    out ≠ [] →
    for_each (group_step sep) (h, before ++ out) inputs
    = prepend before (for_each (group_step sep) (h, out) inputs).
Proof.
  induction inputs as [|x inputs IH]; intros h out Hout; [done|].
  rewrite !for_each_cons, group_step_frame by done.
  destruct (group_step sep (h, out) x) as [[h1 out1]|e] eqn:Hstep; [|done].
  cbn [prepend]. rewrite !bind_Ok. apply IH.
  destruct (exists_last Hout) as (out0 & g & ->).
  apply group_step_prefix in Hstep as (tl & -> & Htl). by destruct out0.
Qed.

(** After the leading singular inputs the loop goes on as if it started
    afresh: the groups made so far are only carried along. *)
Lemma group_loop_restart sep before rest h :
  match rest with [] => True | y :: _ => ¬ singular y end →
  for_each (group_step sep) (h, before) rest
  = prepend before (for_each (group_step sep) (h, []) rest).
Proof.
  destruct rest as [|y rest]; intros Hy.
  { cbn. by rewrite app_nil_r. }
  rewrite !for_each_cons, !group_step_opens, !bind_Ok by done.
  by rewrite group_loop_frame.
Qed.

(** C3 (as amended): every mapping element of the input opens a group of
    its own in the output of [_group_axes_data], and the first items of
    that group are the mapping's values in insertion order, for every
    value of [separate]. With [separate] true or unspecified the call
    returns and the group holds exactly those values; with
    [separate=False] the singular inputs that directly follow the mapping
    are appended to the group: the call groups the inputs before the
    mapping, makes the group of the values followed by those singular
    inputs, and groups what is left on its own. *)
Theorem C3_mapping_opens_group h pre entries post sep :
  (sep ≠ Some false →
   _group_axes_data h (pre ++ PDict entries :: post) sep
   = Ok (h, (own_group <$> pre) ++ Fresh (dict_values entries)
              :: (own_group <$> post)))
  ∧ _group_axes_data h (pre ++ PDict entries :: post) (Some false)
    = ('(h1, out1) ← _group_axes_data h pre (Some false);
       '(h2, out2) ←
         _group_axes_data h1 (drop (length (leading_singular post)) post)
                          (Some false);
       Ok (h2, out1 ++ Fresh (dict_values entries ++ leading_singular post)
                 :: out2))
  ∧ (∀ h' out,
       _group_axes_data h (pre ++ PDict entries :: post) sep = Ok (h', out) →
       ∃ out1 rest out2,
         out = out1 ++ Fresh (dict_values entries ++ rest) :: out2
         ∧ rest `prefix_of` post ∧ Forall singular rest
         ∧ (sep ≠ Some false → rest = [])).
Proof.
  assert (sep ≠ Some false →
          truthy (auto_separate sep (pre ++ PDict entries :: post)) = true)
    as Hauto.
  { apply (auto_separate_collection _ _ (PDict entries)); [|done].
    apply elem_of_app. right. apply list_elem_of_here. }
  split; [|split].
  - intros Hsep. rewrite group_axes_data_separated by auto.
    by rewrite fmap_app.
  - unfold _group_axes_data. rewrite !auto_separate_given, for_each_app.
    destruct (for_each _ (h, []) pre) as [[h1 out1]|e]; [|done].
    rewrite !bind_Ok, for_each_cons. cbn [group_step]. rewrite bind_Ok.
    rewrite <- (leading_singular_drop post) at 1.
    rewrite for_each_app, group_loop_join, bind_Ok
      by (done || apply leading_singular_Forall).
    rewrite group_loop_restart by apply leading_singular_rest.
    destruct (for_each _ (h1, []) _) as [[h2 out2]|e]; [|done].
    cbn. by rewrite <- app_assoc.
  - intros h' out. unfold _group_axes_data.
    rewrite for_each_app.
    destruct (for_each _ (h, []) pre) as [[h1 out1]|e]; [|done].
    rewrite bind_Ok, for_each_cons. cbn [group_step]. rewrite bind_Ok.
    intros (rest & out2 & -> & Hpre & Hall & Hrest)%group_loop_after_fresh.
    exists out1, rest, out2. repeat (split; [done|]). auto.
Qed.

Lemma C3_mapping_opens_group_witness :
  Some true ≠ Some false
  ∧ _group_axes_data ∅ [int 3; PDict [("a", int 1); ("b", int 2)]; int 4]
                     (Some true)
    = Ok (∅, [Fresh [int 3]; Fresh [int 1; int 2]; Fresh [int 4]])
  ∧ _group_axes_data ∅
      [int 0; PDict [("a", int 1); ("b", int 2)]; int 3; int 4;
       PDict [("c", int 5)]; int 6] (Some false)
    = Ok (∅, [Fresh [int 0]; Fresh [int 1; int 2; int 3; int 4];
              Fresh [int 5; int 6]]).
Proof.
  assert (Some true ≠ Some false) as Hsep by done.
  split; [exact Hsep|]. split.
  - exact (proj1 (C3_mapping_opens_group ∅ [int 3]
                    [("a", int 1); ("b", int 2)] [int 4] (Some true)) Hsep).
  - exact (eq_trans
             (proj1 (proj2 (C3_mapping_opens_group ∅ [int 0]
                              [("a", int 1); ("b", int 2)]
                              [int 3; int 4; PDict [("c", int 5)]; int 6]
                              (Some false)))) eq_refl).
Defined.

(** C3 as stated fails: with [separate=False] the group of a mapping also
    receives the singular input that follows it. *)
Lemma C3_counterexample :
  _group_axes_data ∅ [PDict [("a", int 1); ("b", int 2)]; int 3] (Some false)
  = Ok (∅, [Fresh [int 1; int 2; int 3]])
  ∧ [int 1; int 2; int 3] ≠ dict_values [("a", int 1); ("b", int 2)].
Proof. split; [reflexivity|discriminate]. Qed.

(** ** The unit probe *)

Lemma elem_of_collect_units_from (acc : gset Unit) data u :
  u ∈ foldl (λ units x,
               match xunit_of x with
               | Some v => {[v]} ∪ units
               | None => units
               end) acc data
  ↔ u ∈ acc ∨ ∃ x, x ∈ data ∧ xunit_of x = Some u.
Proof.
  revert acc. induction data as [|y data IH]; intros acc; simpl.
  - split; [auto|]. intros [?|(x & Hx & _)]; [done|].
    by apply not_elem_of_nil in Hx.
  - rewrite IH. split.
    + intros [Hacc|(x & Hx & Hu)].
      * destruct (xunit_of y) as [v|] eqn:Hy; [|by left].
        apply elem_of_union in Hacc as [->%elem_of_singleton|?]; [|by left].
        right. exists y. split; [apply list_elem_of_here|done].
      * right. exists x. split; [by apply list_elem_of_further|done].
    + intros [Hacc|(x & Hx & Hu)].
      * left. destruct (xunit_of y); [|done].
        apply elem_of_union. by right.
      * apply elem_of_cons in Hx as [->|Hx].
        -- left. rewrite Hu. apply elem_of_union. left.
           by apply elem_of_singleton.
        -- right. eauto.
Qed.

(** The set built by the loop: the units of the items that have one. *)
Lemma elem_of_collect_units data u :
  u ∈ collect_units data ↔ ∃ x, x ∈ data ∧ xunit_of x = Some u.
Proof.
  unfold collect_units. rewrite elem_of_collect_units_from.
  split; [|by right]. intros [H|H]; [|done]. by apply not_elem_of_empty in H.
Qed.

(** C7: the probe collects the distinct [xunit] values of the items that
    expose one, and answers the relative-time x-scale exactly when one
    distinct unit was found and its physical type is "time"; in every
    other case (no unit, several units, another physical type) it answers
    nothing. *)
Theorem C7_parse_xscale_spec data :
  (∀ u, u ∈ collect_units data ↔ ∃ x, x ∈ data ∧ xunit_of x = Some u)
  ∧ (_parse_xscale data = Some "auto-gps"
     ↔ ∃ u, (∀ v, (∃ x, x ∈ data ∧ xunit_of x = Some v) ↔ v = u)
            ∧ physical_type u = "time")
  ∧ (_parse_xscale data = Some "auto-gps" ∨ _parse_xscale data = None).
Proof.
  split; [apply elem_of_collect_units|].
  assert ((∃ u, (∀ v, (∃ x, x ∈ data ∧ xunit_of x = Some v) ↔ v = u)
                ∧ physical_type u = "time")
          ↔ ∃ u, collect_units data = {[u]} ∧ physical_type u = "time")
    as ->.
  { split; intros (u & Hu & Hty); exists u; (split; [|done]).
    - apply set_eq. intros v.
      by rewrite elem_of_collect_units, elem_of_singleton.
    - intros v. by rewrite <- elem_of_collect_units, Hu, elem_of_singleton. }
  unfold _parse_xscale. case_bool_decide as Hsize.
  - split; [|by right]. split; [done|].
    intros (u & Hu & _). rewrite Hu, size_singleton in Hsize. done.
  - apply size_1_elem_of in Hsize as [u Hu%leibniz_equiv].
    rewrite Hu, elements_singleton.
    case_bool_decide as Hty.
    + split; [|by left]. split; [|done]. intros _. by exists u.
    + split; [|by right]. split; [done|].
      intros (v & ->%singleton_inj & ?). done.
Qed.

(** ** The segments bar *)



(** ** The grid of positions *)

Lemma grid_row_fmap (row ncols : nat) :
  (col ← seq 0 ncols; [(row, col)]) = (λ col, (row, col)) <$> seq 0 ncols.
Proof.
  generalize 0. induction ncols as [|n IH]; intros a; [done|].
  cbn [seq]. rewrite bind_cons, fmap_cons, IH. done.
Qed.

Lemma grid_rows_lookup ncols a n row col :
  row < n → col < ncols →
  (r ← seq a n; c ← seq 0 ncols; [(r, c)]) !! (row * ncols + col)
  = Some (a + row, col).
Proof.
  revert a row. induction n as [|n IH]; intros a row Hrow Hcol; [lia|].
  cbn [seq]. rewrite bind_cons, grid_row_fmap.
  destruct row as [|row].
  - rewrite lookup_app_l by (rewrite length_fmap, length_seq; lia).
    rewrite list_lookup_fmap, lookup_seq_lt by lia.
    simpl. do 2 f_equal; lia.
  - rewrite lookup_app_r by (rewrite length_fmap, length_seq; lia).
    rewrite length_fmap, length_seq.
    replace (S row * ncols + col - ncols) with (row * ncols + col) by lia.
    rewrite IH by lia. do 2 f_equal. lia.
Qed.

Lemma grid_rows_length ncols a n :
  length (r ← seq a n; c ← seq 0 ncols; [(r, c)]) = n * ncols.
Proof.
  revert a. induction n as [|n IH]; intros a; [done|].
  cbn [seq]. rewrite bind_cons, length_app, IH, grid_row_fmap.
  rewrite length_fmap, length_seq. lia.
Qed.

Lemma grid_positions_length nrows ncols :
  length (grid_positions nrows ncols) = nrows * ncols.
Proof. apply grid_rows_length. Qed.

(** Row-major order: cell [(row, col)] is number [row * ncols + col]. *)
Lemma grid_positions_lookup nrows ncols row col :
  row < nrows → col < ncols →
  grid_positions nrows ncols !! (row * ncols + col) = Some (row, col).
Proof. apply (grid_rows_lookup ncols 0 nrows). Qed.

Lemma grid_positions_lookup_inv nrows ncols i row col :
  grid_positions nrows ncols !! i = Some (row, col) →
  row < nrows ∧ col < ncols ∧ i = row * ncols + col.
Proof.
  intros Hi. pose proof (lookup_lt_Some _ _ _ Hi) as Hlt.
  rewrite grid_positions_length in Hlt.
  assert (0 < ncols) as Hpos by (destruct ncols; lia).
  pose proof (Nat.div_mod_eq i ncols) as Hdm.
  pose proof (Nat.mod_upper_bound i ncols ltac:(lia)) as Hmod.
  assert (i / ncols < nrows) as Hdiv.
  { apply Nat.Div0.div_lt_upper_bound. lia. }
  rewrite Hdm in Hi at 1.
  replace (ncols * (i / ncols) + i mod ncols)
    with (i / ncols * ncols + i mod ncols) in Hi by lia.
  rewrite grid_positions_lookup in Hi by done.
  injection Hi as <- <-. repeat split; [done|done|lia].
Qed.

Lemma grid_positions_NoDup nrows ncols : NoDup (grid_positions nrows ncols).
Proof.
  apply NoDup_alt. intros i j [row col] Hi Hj.
  apply grid_positions_lookup_inv in Hi as (_ & _ & ->).
  apply grid_positions_lookup_inv in Hj as (_ & _ & ->). done.
Qed.

(** ** The axes loop *)

Lemma fill_lookup_notin axarr n ps p :
  p ∉ ps → fill axarr n ps !! p = axarr !! p.
Proof.
  revert axarr n. induction ps as [|q ps IH]; intros axarr n Hp; [done|].
  apply not_elem_of_cons in Hp as [Hne Hp]. cbn [fill].
  rewrite IH by done. by apply lookup_insert_ne.
Qed.

Lemma fill_lookup_at axarr n ps k p :
  NoDup ps → ps !! k = Some p → fill axarr n ps !! p = Some (n + k).
Proof.
  revert axarr n k. induction ps as [|q ps IH]; intros axarr n k Hnd Hk.
  { done. }
  apply NoDup_cons in Hnd as [Hq Hnd]. cbn [fill]. destruct k as [|k].
  - injection Hk as ->. rewrite fill_lookup_notin by done.
    rewrite lookup_insert_eq. f_equal. lia.
  - cbn in Hk. rewrite (IH _ _ k) by done. f_equal. lia.
Qed.

(** The cells of the array seen by the axes number [i] of the grid. *)
Lemma fill_grid_lookup nrows ncols i p :
  fill ∅ 0 (take i (grid_positions nrows ncols)) !! p
  = match p with
    | (row, col) =>
        if bool_decide (row < nrows ∧ col < ncols ∧ row * ncols + col < i)
        then Some (row * ncols + col)
        else None
    end.
Proof.
  destruct p as [row col]. case_bool_decide as H.
  - destruct H as (Hrow & Hcol & Hi).
    rewrite (fill_lookup_at _ _ _ (row * ncols + col)); [done| |].
    + eapply sublist_NoDup; [apply grid_positions_NoDup|apply sublist_take].
    + rewrite lookup_take_lt by done. by apply grid_positions_lookup.
  - rewrite fill_lookup_notin; [done|].
    intros (k & Hk)%list_elem_of_lookup.
    apply lookup_take_Some in Hk as [Hk Hlt].
    apply grid_positions_lookup_inv in Hk as (? & ? & ->). tauto.
Qed.

Lemma axes_step_Ok h method xscale sharex sharey nrows ncols axarr fig_axes
  grp row col axarr' fig_axes' :
  axes_step h method xscale sharex sharey nrows ncols (axarr, fig_axes)
            (grp, (row, col)) = Ok (axarr', fig_axes') →
  ∃ ax, axarr' = <[(row, col) := length fig_axes]> axarr
        ∧ fig_axes' = fig_axes ++ [ax]
        ∧ axes_created h method xscale sharex sharey nrows ncols axarr
                       grp row col ax.
Proof.
  unfold axes_step.
  destruct (getitem _ sharex) as [sx|e] eqn:Hsx; [|done].
  destruct (getitem _ sharey) as [sy|e] eqn:Hsy; [|done].
  rewrite !bind_Ok. intros [= <- <-]. eexists. split; [done|].
  split; [done|]. by repeat split.
Qed.

Lemma axes_loop_Ok h method xscale sharex sharey nrows ncols items :
  ∀ axarr0 axes0 axarr fig_axes,
  for_each (axes_step h method xscale sharex sharey nrows ncols)
           (axarr0, axes0) items = Ok (axarr, fig_axes) →
  ∃ new,
    fig_axes = axes0 ++ new ∧ length new = length items
    ∧ ∀ i grp row col,
        items !! i = Some (grp, (row, col)) →
        ∃ ax, new !! i = Some ax
              ∧ axes_created h method xscale sharex sharey nrows ncols
                  (fill axarr0 (length axes0) (take i items.*2))
                  grp row col ax.
Proof.
  induction items as [|[grp [row col]] items IH];
    intros axarr0 axes0 axarr fig_axes.
  { intros [= <- <-]. exists []. rewrite app_nil_r. repeat split. done. }
  rewrite for_each_cons.
  destruct (axes_step _ _ _ _ _ _ _ _ _) as [[axarr1 axes1]|e] eqn:Hstep;
    [|done].
  apply axes_step_Ok in Hstep as (ax & -> & -> & Hax).
  rewrite bind_Ok. intros (new & -> & Hlen & Hnew)%IH.
  exists (ax :: new). rewrite <- app_assoc. split; [done|].
  split; [by rewrite !length_cons, Hlen|].
  intros [|i] grp' row' col' Hi.
  - injection Hi as <- <- <-. exists ax. done.
  - cbn in Hi. apply Hnew in Hi as (ax' & Hax' & Hcreated).
    exists ax'. split; [done|].
    rewrite length_app, Nat.add_1_r in Hcreated. done.
Qed.

Lemma getitem_shared_with axarr row col key :
  key ∈ share_keys → ∃ v, getitem (shared_with axarr row col) key = Ok v.
Proof.
  intros Hkey. unfold getitem.
  destruct (shared_with axarr row col !! key) as [v|] eqn:Hv; [by eauto|].
  exfalso. unfold shared_with in Hv.
  repeat (apply lookup_insert_None in Hv as [Hv ?]).
  apply list_elem_of_In in Hkey. simpl in Hkey. intuition congruence.
Qed.

Lemma getitem_shared_with_inv axarr row col key v :
  getitem (shared_with axarr row col) key = Ok v →
  (key = "none" ∧ v = None)
  ∨ (key = "all" ∧ v = axarr !! (0, 0))
  ∨ (key = "row" ∧ v = axarr !! (row, 0))
  ∨ (key = "col" ∧ v = axarr !! (0, col)).
Proof.
  unfold getitem, shared_with.
  destruct (_ !! key) as [w|] eqn:Hw; [|done]. intros [= ->].
  repeat (apply lookup_insert_Some in Hw as [[<- <-]|[? Hw]]; [by auto 6|]).
  done.
Qed.

Lemma axes_loop_returns h method xscale sharex sharey nrows ncols items :
  sharex ∈ share_keys → sharey ∈ share_keys →
  ∀ st, ∃ st',
    for_each (axes_step h method xscale sharex sharey nrows ncols) st items
    = Ok st'.
Proof.
  intros Hx Hy. induction items as [|[grp [row col]] items IH]; intros st.
  { by eexists. }
  rewrite for_each_cons. destruct st as [axarr fig_axes]. unfold axes_step.
  destruct (getitem_shared_with axarr row col _ Hx) as [sx ->].
  destruct (getitem_shared_with axarr row col _ Hy) as [sy ->].
  rewrite !bind_Ok. apply IH.
Qed.

(** ** [_init_axes] as a whole *)

Lemma init_axes_unfold h data method xscale sharex sharey geometry separate :
  _init_axes h data method xscale sharex sharey geometry separate
  = '(h', axes_groups) ←
      _group_axes_data h data (forced_separate geometry data separate);
    let naxes := length axes_groups in
    let '(nrows, ncols) := default (naxes, 1) geometry in
    if bool_decide (nrows * ncols ≠ naxes)
    then Raise (ValueError_grid naxes nrows ncols)
    else
      '(_, fig_axes) ←
        for_each (axes_step h' method xscale (share_spec sharex)
                            (share_spec sharey) nrows ncols)
                 (∅, []) (zip axes_groups (grid_positions nrows ncols));
      Ok fig_axes.
Proof. done. Qed.

(** A mismatch of grid and group count raises, naming the three numbers. *)
Lemma init_axes_grid_mismatch h data method xscale sharex sharey geometry
  separate h' groups nrows ncols :
  _group_axes_data h data (forced_separate geometry data separate)
  = Ok (h', groups) →
  default (length groups, 1) geometry = (nrows, ncols) →
  nrows * ncols ≠ length groups →
  _init_axes h data method xscale sharex sharey geometry separate
  = Raise (ValueError_grid (length groups) nrows ncols).
Proof.
  intros Hgroups Hgeo Hne. rewrite init_axes_unfold, Hgroups, bind_Ok.
  cbn zeta. rewrite Hgeo. by rewrite bool_decide_eq_true_2.
Qed.

(** With matching grid and valid share specifications the call returns. *)
Lemma init_axes_returns h data method xscale sharex sharey geometry separate
  h' groups nrows ncols :
  _group_axes_data h data (forced_separate geometry data separate)
  = Ok (h', groups) →
  default (length groups, 1) geometry = (nrows, ncols) →
  nrows * ncols = length groups →
  share_spec sharex ∈ share_keys → share_spec sharey ∈ share_keys →
  ∃ fig_axes,
    _init_axes h data method xscale sharex sharey geometry separate
    = Ok fig_axes.
Proof.
  intros Hgroups Hgeo Heq Hx Hy. rewrite init_axes_unfold, Hgroups, bind_Ok.
  cbn zeta. rewrite Hgeo. rewrite bool_decide_eq_false_2 by (intros ?; done).
  destruct (axes_loop_returns h' method xscale _ _ nrows ncols
              (zip groups (grid_positions nrows ncols)) Hx Hy (∅, []))
    as [[axarr fig_axes] ->].
  by exists fig_axes.
Qed.

(** What a returned list of axes looks like: one axes per group, in
    row-major order over the grid. *)
Lemma init_axes_Ok h data method xscale sharex sharey geometry separate
  fig_axes :
  _init_axes h data method xscale sharex sharey geometry separate
  = Ok fig_axes →
  ∃ h' groups nrows ncols,
    _group_axes_data h data (forced_separate geometry data separate)
    = Ok (h', groups)
    ∧ default (length groups, 1) geometry = (nrows, ncols)
    ∧ nrows * ncols = length groups
    ∧ length fig_axes = length groups
    ∧ ∀ i grp,
        groups !! i = Some grp →
        ∃ ax row col,
          fig_axes !! i = Some ax
          ∧ grid_positions nrows ncols !! i = Some (row, col)
          ∧ axes_created h' method xscale (share_spec sharex)
              (share_spec sharey) nrows ncols
              (fill ∅ 0 (take i (grid_positions nrows ncols)))
              grp row col ax.
Proof.
  rewrite init_axes_unfold.
  destruct (_group_axes_data _ _ _) as [[h' groups]|e]; [|done].
  rewrite bind_Ok. cbn zeta.
  destruct (default _ geometry) as [nrows ncols] eqn:Hgeo.
  case_bool_decide as Hsize; [done|].
  destruct (for_each _ _ _) as [[axarr axs]|e] eqn:Hloop; [|done].
  rewrite bind_Ok. intros [= ->].
  apply axes_loop_Ok in Hloop as (new & -> & Hlen & Hnew).
  pose proof (grid_positions_length nrows ncols) as Hpos.
  assert (length (zip groups (grid_positions nrows ncols)) = length groups)
    as Hzip by (rewrite length_zip_with; lia).
  exists h', groups, nrows, ncols. repeat (split; [done|]).
  split; [cbn; lia|].
  intros i grp Hi.
  destruct (lookup_lt_is_Some_2 (grid_positions nrows ncols) i)
    as [[row col] Hp].
  { apply lookup_lt_Some in Hi. lia. }
  destruct (Hnew i grp row col) as (ax & Hax & Hcreated).
  { apply lookup_zip_with_Some. eauto. }
  exists ax, row, col. split; [done|]. split; [done|].
  rewrite snd_zip in Hcreated by lia. done.
Qed.

Lemma drawn_plot_calls method items :
  concat (plot_calls method items) = items.
Proof.
  unfold plot_calls. case_bool_decide.
  - induction items as [|x items IH]; [done|]. cbn. by rewrite IH.
  - cbn. apply app_nil_r.
Qed.

Lemma clears_label_all i n :
  clears_label "all" i n = bool_decide (i + 1 < n).
Proof.
  unfold clears_label. cbn [andb]. rewrite bool_decide_eq_true_2 by done.
  cbn [andb]. apply bool_decide_ext. lia.
Qed.

(** C1 (as amended): when [sharex] resolves to "all", every axes that is
    not in the last row of the grid has its x-axis label set to the empty
    string and the axes of the last row keep theirs; when [sharey]
    resolves to "all", every axes that is not in the last column has its
    y-axis label set to the empty string and the axes of the last column
    keep theirs. *)
Theorem C1_labels_cleared h data method xscale sharex sharey geometry
  separate fig_axes :
  _init_axes h data method xscale sharex sharey geometry separate
  = Ok fig_axes →
  ∃ nrows ncols,
    default (length fig_axes, 1) geometry = (nrows, ncols)
    ∧ ∀ ax, ax ∈ fig_axes →
        ∃ row col,
          ax_pos ax = (row, col) ∧ row < nrows ∧ col < ncols
          ∧ (share_spec sharex = "all" →
             (row + 1 < nrows → ax_xlabel ax = SetTo "")
             ∧ (row + 1 = nrows → ax_xlabel ax = Drawn))
          ∧ (share_spec sharey = "all" →
             (col + 1 < ncols → ax_ylabel ax = SetTo "")
             ∧ (col + 1 = ncols → ax_ylabel ax = Drawn)).
Proof.
  intros (h' & groups & nrows & ncols & _ & Hgeo & _ & Hlen & Haxes)
    %init_axes_Ok.
  exists nrows, ncols. rewrite Hlen. split; [done|].
  intros ax (i & Hi)%list_elem_of_lookup.
  destruct (lookup_lt_is_Some_2 groups i) as [grp Hgrp].
  { apply lookup_lt_Some in Hi. lia. }
  apply Haxes in Hgrp as (ax' & row & col & Hax' & Hpos & Hcreated).
  assert (ax' = ax) as -> by congruence.
  apply grid_positions_lookup_inv in Hpos as (Hrow & Hcol & _).
  destruct Hcreated as (Hp & _ & _ & _ & _ & Hxl & Hyl).
  exists row, col. repeat (split; [done|]).
  split; intros Hall; rewrite Hall, clears_label_all in *.
  - rewrite Hxl. split; intros ?; case_bool_decide; done || lia.
  - rewrite Hyl. split; intros ?; case_bool_decide; done || lia.
Qed.

Lemma C1_labels_cleared_witness :
  ∃ top bottom,
    _init_axes ∅ [timeseries 1; timeseries 2] "plot" None
               (ShareBool true) (ShareBool false) None (Some true)
    = Ok [top; bottom]
    ∧ ax_pos top = (0, 0) ∧ ax_xlabel top = SetTo ""
    ∧ ax_pos bottom = (1, 0) ∧ ax_xlabel bottom = Drawn
    ∧ ∃ nrows ncols,
        default (length [top; bottom], 1) None = (nrows, ncols)
        ∧ ∀ ax, ax ∈ [top; bottom] →
            ∃ row col,
              ax_pos ax = (row, col) ∧ row < nrows ∧ col < ncols
              ∧ (share_spec (ShareBool true) = "all" →
                 (row + 1 < nrows → ax_xlabel ax = SetTo "")
                 ∧ (row + 1 = nrows → ax_xlabel ax = Drawn))
              ∧ (share_spec (ShareBool false) = "all" →
                 (col + 1 < ncols → ax_ylabel ax = SetTo "")
                 ∧ (col + 1 = ncols → ax_ylabel ax = Drawn)).
Proof.
  eexists _, _. split; [reflexivity|].
  repeat (split; [reflexivity|]).
  exact (C1_labels_cleared ∅ [timeseries 1; timeseries 2] "plot" None
           (ShareBool true) (ShareBool false) None (Some true) _ eq_refl).
Defined.

(** C1 as stated fails for the y axis: on a 1x2 grid with [sharey=True]
    the axes of the first column loses its y-axis label and the axes of
    the second column keeps it. *)
Lemma C1_counterexample :
  ∃ left right,
    _init_axes ∅ [timeseries 1; timeseries 2] "plot" None
               (ShareBool false) (ShareBool true) (Some (1, 2)) None
    = Ok [left; right]
    ∧ share_spec (ShareBool true) = "all"
    ∧ ax_pos left = (0, 0) ∧ ax_ylabel left = SetTo ""
    ∧ ax_pos right = (0, 1) ∧ ax_ylabel right = Drawn.
Proof. eexists _, _. repeat split; reflexivity. Qed.

(** C4: when an explicit geometry [(rows, cols)] is given and
    [rows * cols] equals the number of raw data items, [separate] is
    forced to true before grouping, whatever the caller passed; the
    grouping then makes one group per data item, the grid check passes,
    and each data item is drawn on an axes of its own, in order. *)
Theorem C4_full_geometry_separates h data method xscale sharex sharey
  rows cols separate :
  rows * cols = length data →
  forced_separate (Some (rows, cols)) data separate = Some true
  ∧ _group_axes_data h data
      (forced_separate (Some (rows, cols)) data separate)
    = Ok (h, own_group <$> data)
  ∧ (share_spec sharex ∈ share_keys → share_spec sharey ∈ share_keys →
     ∃ fig_axes,
       _init_axes h data method xscale sharex sharey (Some (rows, cols))
                  separate = Ok fig_axes)
  ∧ (∀ fig_axes,
       _init_axes h data method xscale sharex sharey (Some (rows, cols))
                  separate = Ok fig_axes →
       length fig_axes = length data
       ∧ ∀ i x, data !! i = Some x →
           ∃ ax, fig_axes !! i = Some ax
                 ∧ drawn ax = contents h (own_group x)).
Proof.
  intros Hsize.
  assert (forced_separate (Some (rows, cols)) data separate = Some true)
    as Hforced.
  { unfold forced_separate. by rewrite bool_decide_eq_true_2. }
  assert (_group_axes_data h data
            (forced_separate (Some (rows, cols)) data separate)
          = Ok (h, own_group <$> data)) as Hgroups.
  { rewrite Hforced. apply group_axes_data_separated.
    by rewrite auto_separate_given. }
  split; [done|]. split; [done|]. split.
  - intros Hx Hy.
    apply (init_axes_returns h data method xscale sharex sharey
             (Some (rows, cols)) separate h (own_group <$> data) rows cols);
      try done.
    by rewrite length_fmap.
  - intros fig_axes
      (h' & groups & nrows & ncols & Hg & _ & _ & Hlen & Haxes)%init_axes_Ok.
    rewrite Hgroups in Hg. injection Hg as <- <-.
    rewrite length_fmap in Hlen. split; [done|].
    intros i x Hi.
    destruct (Haxes i (own_group x)) as (ax & row & col & Hax & _ & Hcreated).
    { by rewrite list_lookup_fmap, Hi. }
    exists ax. split; [done|].
    destruct Hcreated as (_ & _ & _ & _ & Hcalls & _).
    unfold drawn. rewrite Hcalls. apply drawn_plot_calls.
Qed.

Lemma C4_full_geometry_separates_witness :
  1 * 2 = length [int 1; int 2]
  ∧ forced_separate (Some (1, 2)) [int 1; int 2] (Some false) = Some true
  ∧ _group_axes_data ∅ [int 1; int 2]
      (forced_separate (Some (1, 2)) [int 1; int 2] (Some false))
    = Ok (∅, [Fresh [int 1]; Fresh [int 2]]).
Proof.
  assert (1 * 2 = length [int 1; int 2]) as Hsize by done.
  pose proof (C4_full_geometry_separates ∅ [int 1; int 2] "plot" None
                (ShareBool false) (ShareBool false) 1 2 (Some false) Hsize)
    as (Hforced & Hgroups & _).
  split; [exact Hsize|]. split; [exact Hforced|exact Hgroups].
Defined.

(** The grid check is the only place where [_init_axes] raises a
    [ValueError], and the default geometry never fails it. *)
Lemma init_axes_default_geometry h data method xscale sharex sharey separate
  naxes nrows ncols :
  _init_axes h data method xscale sharex sharey None separate
  ≠ Raise (ValueError_grid naxes nrows ncols).
Proof.
  rewrite init_axes_unfold.
  destruct (_group_axes_data _ _ _) as [[h' groups]|e] eqn:Hgroups.
  - rewrite bind_Ok. cbn.
    rewrite bool_decide_eq_false_2 by lia.
    destruct (for_each _ _ _) as [[axarr fig_axes]|e] eqn:Hloop; [done|].
    rewrite bind_Raise. intros [= ->].
    clear -Hloop. revert Hloop. generalize (∅ : axarray, [] : list axes).
    induction (zip groups _) as [|[grp [row col]] items IH]; intros st.
    { done. }
    rewrite for_each_cons. destruct st as [axarr fig_axes].
    destruct (axes_step _ _ _ _ _ _ _ _ _) as [st'|e] eqn:Hstep.
    + rewrite bind_Ok. apply IH.
    + rewrite bind_Raise. intros [= ->].
      unfold axes_step, getitem in Hstep.
      destruct (_ !! share_spec sharex); [|done]. rewrite bind_Ok in Hstep.
      destruct (_ !! share_spec sharey); done.
  - rewrite bind_Raise. intros [= ->].
    unfold _group_axes_data in Hgroups.
    assert (∀ inputs sep st,
              for_each (group_step sep) st inputs
              ≠ Raise (ValueError_grid naxes nrows ncols)) as Hnever.
    { clear. induction inputs as [|x inputs IH]; intros sep st; [done|].
      rewrite for_each_cons.
      destruct (group_step sep st x) as [st'|e] eqn:Hstep.
      - rewrite bind_Ok. apply IH.
      - rewrite bind_Raise. intros [= ->].
        destruct st as [h out]. unfold group_step in Hstep.
        destruct x; try done. cbn in Hstep.
        destruct (truthy sep || _); [done|].
        unfold append_to_last in Hstep.
        destruct (last out) as [[|[]]|]; done. }
    exact (Hnever _ _ _ Hgroups).
Qed.

(** C5: the claim meets a defect of the code at the input below. A tuple
    followed by a singular input, grouped with [separate=False], raises
    an [AttributeError] from [out[-1].append(x)]: an error of the
    grouping other than the grid mismatch. *)
Theorem C5_tuple_then_singular_raises :
  _init_axes ∅ [PTuple [int 1; int 2]; int 3] "plot" None
             (ShareBool false) (ShareBool false) None (Some false)
  = Raise AttributeError_append.
Proof. reflexivity. Qed.

(** ** Shared axes *)

Lemma shares_with_cell (fig_axes : list axes)
  (nrows ncols row col trow tcol : nat) :
  (∀ r c, r < nrows → c < ncols →
          ∃ a, fig_axes !! (r * ncols + c) = Some a ∧ ax_pos a = (r, c)) →
  row < nrows → col < ncols → (trow ≤ row)%nat → (tcol ≤ col)%nat →
  shares_with fig_axes (row * ncols + col) (row, col) (trow, tcol)
    (fill ∅ 0 (take (row * ncols + col) (grid_positions nrows ncols))
     !! (trow, tcol)).
Proof.
  intros Hcells Hrow Hcol Htrow Htcol. rewrite fill_grid_lookup.
  unfold shares_with. destruct (decide _) as [[= -> ->]|Hne].
  - rewrite bool_decide_eq_false_2; [done|lia].
  - assert (trow * ncols + tcol < row * ncols + col) as Hlt.
    { assert (trow ≠ row ∨ tcol ≠ col) as [?|?]
        by (destruct (decide (trow = row)); [right; congruence|by left]);
        nia. }
    rewrite bool_decide_eq_true_2 by (repeat split; lia).
    destruct (Hcells trow tcol) as (a & Ha & Hpos); [lia..|].
    exists (trow * ncols + tcol), a. done.
Qed.

(** C6: a boolean [sharex] / [sharey] is coerced ([True] to "all",
    [False] to "none"), and each new axes at [(row, col)] shares the
    axis, among the axes created so far, with nothing for "none", the
    axes at [(0, 0)] for "all", the axes at [(row, 0)] for "row" and the
    axes at [(0, col)] for "col". *)
Theorem C6_share_resolution h data method xscale sharex sharey geometry
  separate fig_axes :
  _init_axes h data method xscale sharex sharey geometry separate
  = Ok fig_axes →
  share_spec (ShareBool true) = "all"
  ∧ share_spec (ShareBool false) = "none"
  ∧ ∀ i ax,
      fig_axes !! i = Some ax →
      share_resolved fig_axes i (share_spec sharex) (ax_pos ax) (ax_sharex ax)
      ∧ share_resolved fig_axes i (share_spec sharey) (ax_pos ax)
          (ax_sharey ax).
Proof.
  intros (h' & groups & nrows & ncols & _ & _ & Hsize & Hlen & Haxes)
    %init_axes_Ok.
  split; [done|]. split; [done|].
  assert (∀ r c, r < nrows → c < ncols →
            ∃ a, fig_axes !! (r * ncols + c) = Some a ∧ ax_pos a = (r, c))
    as Hcells.
  { intros r c Hr Hc.
    destruct (lookup_lt_is_Some_2 groups (r * ncols + c)) as [grp Hgrp];
      [nia|].
    apply Haxes in Hgrp as (a & r' & c' & Ha & Hpos & Hcreated).
    rewrite grid_positions_lookup in Hpos by done. injection Hpos as <- <-.
    exists a. split; [done|]. apply Hcreated. }
  intros i ax Hi.
  destruct (lookup_lt_is_Some_2 groups i) as [grp Hgrp].
  { apply lookup_lt_Some in Hi. lia. }
  apply Haxes in Hgrp as (ax' & row & col & Hax' & Hpos & Hcreated).
  assert (ax' = ax) as -> by congruence.
  apply grid_positions_lookup_inv in Hpos as (Hrow & Hcol & ->).
  destruct Hcreated as (Hp & Hsx & Hsy & _). rewrite Hp.
  assert (∀ spec s,
            getitem (shared_with
                       (fill ∅ 0 (take (row * ncols + col)
                                    (grid_positions nrows ncols))) row col)
                    spec = Ok s →
            share_resolved fig_axes (row * ncols + col) spec (row, col) s)
    as Hres.
  { intros spec s Hs. unfold share_resolved.
    apply getitem_shared_with_inv in Hs
      as [[-> ->]|[[-> ->]|[[-> ->]|[-> ->]]]]; [by left|right..].
    - left. split; [done|]. apply (shares_with_cell _ nrows); done || lia.
    - right; left. split; [done|].
      apply (shares_with_cell _ nrows); done || lia.
    - right; right. split; [done|].
      apply (shares_with_cell _ nrows); done || lia. }
  split; by apply Hres.
Qed.

Lemma C6_share_resolution_witness :
  ∃ a b c d,
    _init_axes ∅ [int 1; int 2; int 3; int 4] "plot" None
               (ShareStr "col") (ShareBool true) (Some (2, 2)) None
    = Ok [a; b; c; d]
    ∧ ax_sharex a = None ∧ ax_sharex b = None
    ∧ ax_sharex c = Some 0 ∧ ax_sharex d = Some 1
    ∧ ax_sharey a = None ∧ ax_sharey b = Some 0
    ∧ ax_sharey c = Some 0 ∧ ax_sharey d = Some 0
    ∧ ∀ i ax,
        [a; b; c; d] !! i = Some ax →
        share_resolved [a; b; c; d] i (share_spec (ShareStr "col"))
                       (ax_pos ax) (ax_sharex ax)
        ∧ share_resolved [a; b; c; d] i (share_spec (ShareBool true))
                         (ax_pos ax) (ax_sharey ax).
Proof.
  eexists _, _, _, _. split; [reflexivity|].
  repeat (split; [reflexivity|]).
  exact (proj2 (proj2
           (C6_share_resolution ∅ [int 1; int 2; int 3; int 4] "plot" None
              (ShareStr "col") (ShareBool true) (Some (2, 2)) None _
              eq_refl))).
Defined.

(** ** The default x-scale *)

Lemma init_axes_xscale_None h data method sharex sharey geometry separate
  fig_axes :
  _init_axes h data method None sharex sharey geometry separate
  = Ok fig_axes →
  ∀ ax, ax ∈ fig_axes → ax_xscale ax = _parse_xscale (drawn ax).
Proof.
  intros (h' & groups & nrows & ncols & _ & _ & _ & Hlen & Haxes)
    %init_axes_Ok ax (i & Hi)%list_elem_of_lookup.
  destruct (lookup_lt_is_Some_2 groups i) as [grp Hgrp].
  { apply lookup_lt_Some in Hi. lia. }
  apply Haxes in Hgrp as (ax' & row & col & Hax' & _ & Hcreated).
  assert (ax' = ax) as -> by congruence.
  destruct Hcreated as (_ & _ & _ & Hscale & Hcalls & _).
  unfold drawn. rewrite Hscale, Hcalls, drawn_plot_calls. done.
Qed.

(** C10: when the caller gives no x-scale and the probe over the
    flattened inputs finds no default, [_init_axes] receives no x-scale
    and gives every axes the answer of the probe on the data of that
    axes; two axes of one figure can so receive different x-scales. *)
Theorem C10_xscale_per_axes GPS_SCALES h data kw_figsize projection method
  sharex sharey geometry separate :
  (∀ h1 flat,
     _group_axes_data_flat h data None = Ok (h1, flat) →
     _parse_xscale flat = None →
     ∀ fig,
       Plot_init GPS_SCALES h data None kw_figsize projection method
                 sharex sharey geometry separate = Ok fig →
       ∀ ax, ax ∈ fig_axes fig → ax_xscale ax = _parse_xscale (drawn ax))
  ∧ ∃ upper lower,
      Plot_init GPS_SCALES ∅ [timeseries 1; frequencyseries 2] None None
                None "plot" (ShareBool false) (ShareBool false) None None
      = Ok (mkFigure None [upper; lower])
      ∧ ax_xscale upper = Some "auto-gps" ∧ ax_xscale lower = None.
Proof.
  split.
  - intros h1 flat Hflat Hprobe fig. unfold Plot_init.
    rewrite Hflat, bind_Ok. cbn [setdefault]. rewrite Hprobe.
    cbn [is_gps_scale orb].
    assert (default None
              (if bool_decide (projection = Some "segments") || false
               then Some None else Some None) = (None : option string))
      as -> by by destruct (_ || _).
    destruct (_init_axes _ _ _ _ _ _ _ _) as [axs|e] eqn:Haxes; [|done].
    rewrite bind_Ok. intros [= <-]. cbn [fig_axes].
    by eapply init_axes_xscale_None.
  - eexists _, _. split; [reflexivity|]. split; reflexivity.
Qed.

Lemma C10_xscale_per_axes_witness :
  ∃ fig,
    _group_axes_data_flat ∅ [timeseries 1; frequencyseries 2] None
    = Ok (∅, [timeseries 1; frequencyseries 2])
    ∧ _parse_xscale [timeseries 1; frequencyseries 2] = None
    ∧ Plot_init ["auto-gps"] ∅ [timeseries 1; frequencyseries 2] None None
                None "plot" (ShareBool false) (ShareBool false) None None
      = Ok fig
    ∧ length (fig_axes fig) = 2
    ∧ ∀ ax, ax ∈ fig_axes fig → ax_xscale ax = _parse_xscale (drawn ax).
Proof.
  eexists. split; [reflexivity|]. split; [reflexivity|].
  split; [reflexivity|]. split; [reflexivity|].
  exact (proj1 (C10_xscale_per_axes ["auto-gps"] ∅
                  [timeseries 1; frequencyseries 2] None None "plot"
                  (ShareBool false) (ShareBool false) None None)
           ∅ [timeseries 1; frequencyseries 2] eq_refl eq_refl _ eq_refl).
Defined.

(** * Further properties *)

(** ** Grouping: what it keeps and when it fails *)

Lemma concat_fmap_singleton {A} (l : list A) : concat ((λ x, [x]) <$> l) = l.
Proof. induction l as [|x l IH]; [done|]. cbn. by rewrite IH. Qed.

Lemma contents_Fresh_fmap h (f : obj → list obj) (inputs : list obj) :
  contents h <$> ((λ x, Fresh (f x)) <$> inputs) = f <$> inputs.
Proof. induction inputs as [|x inputs IH]; [done|]. cbn. by rewrite IH. Qed.

(** Singular inputs are only regrouped: whatever [separate] is, the call
    returns, the store is as before and the groups, read in order, are
    the inputs. *)
Lemma group_axes_data_singular h inputs sep :
  Forall singular inputs →
  ∃ out, _group_axes_data h inputs sep = Ok (h, out)
         ∧ concat (contents h <$> out) = inputs.
Proof.
  intros Hall. destruct (truthy (auto_separate sep inputs)) eqn:Hsep.
  - exists ((λ x, Fresh [x]) <$> inputs). split.
    + rewrite group_axes_data_separated by done.
      by rewrite own_group_singular.
    + rewrite (contents_Fresh_fmap h (λ x, [x])).
      apply concat_fmap_singleton.
  - destruct inputs as [|x inputs]; [by exists []|].
    exists [Fresh (x :: inputs)]. split; [|cbn; by rewrite app_nil_r].
    apply Forall_cons in Hall as [Hx Hall].
    unfold _group_axes_data. rewrite for_each_cons.
    apply singular_Data in Hx as (ty & u & n & ->). cbn [group_step].
    rewrite Hsep. cbn [isinstance not_empty negb orb].
    assert (isinstance (Data ty u n) iterable_types = false) as -> by done.
    rewrite bind_Ok.
    apply (group_loop_join _ h [] [Data ty u n] inputs); done.
Qed.

Lemma group_axes_data_flat_singular h inputs sep :
  Forall singular inputs →
  _group_axes_data_flat h inputs sep = Ok (h, inputs).
Proof.
  intros (out & Hout & Hflat)%(group_axes_data_singular h inputs sep).
  unfold _group_axes_data_flat. by rewrite Hout, bind_Ok, Hflat.
Qed.

(** X1: in flat mode, a list of singular inputs comes back as it is, in
    its order, for every value of [separate], and no list of the caller
    is touched. *)
Theorem X1_flat_singular_identity h inputs sep :
  Forall singular inputs →
  _group_axes_data_flat h inputs sep = Ok (h, inputs).
Proof.
  apply group_axes_data_flat_singular.
Qed.

Lemma X1_flat_singular_identity_witness :
  Forall singular [int 1; timeseries 2; int 3]
  ∧ _group_axes_data_flat ∅ [int 1; timeseries 2; int 3] (Some false)
    = Ok (∅, [int 1; timeseries 2; int 3]).
Proof.
  assert (Forall singular [int 1; timeseries 2; int 3]) as Hall
    by (repeat constructor).
  split; [exact Hall|].
  exact (X1_flat_singular_identity ∅ [int 1; timeseries 2; int 3]
           (Some false) Hall).
Defined.

(** X2: unless [separate] is given as false, the grouping returns for
    every input list, mixed or not, and leaves the lists of the caller
    as they were. *)
Theorem X2_grouping_returns_unless_false h inputs sep :
  sep ≠ Some false →
  ∃ out, _group_axes_data h inputs sep = Ok (h, out).
Proof.
  intros Hsep. destruct sep as [[]|]; [|done|].
  - exists (own_group <$> inputs). apply group_axes_data_separated.
    by rewrite auto_separate_given.
  - apply group_axes_data_unspecified_returns.
Qed.

Lemma X2_grouping_returns_unless_false_witness :
  (None : option bool) ≠ Some false
  ∧ ∃ out,
      _group_axes_data {[0 := [int 1]]}
        [PTuple [int 1; int 2]; int 3; PList 0; int 4] None
      = Ok ({[0 := [int 1]]}, out).
Proof.
  assert ((None : option bool) ≠ Some false) as Hsep by done.
  split; [exact Hsep|].
  exact (X2_grouping_returns_unless_false {[0 := [int 1]]}
           [PTuple [int 1; int 2]; int 3; PList 0; int 4] None Hsep).
Defined.

Lemma group_step_raise sep h out y e :
  truthy sep = false →
  group_step sep (h, out) y = Raise e →
  e = AttributeError_append ∧ singular y
  ∧ ∃ x, last out = Some (Given x) ∧ ∀ l, x ≠ PList l.
Proof.
  intros Hsep. destruct y; try done. cbn. rewrite Hsep. cbn.
  destruct out as [|g out]; [done|]. cbn [not_empty negb].
  unfold append_to_last. destruct (last (g :: out)) as [[items|x]|] eqn:Hlast.
  - done.
  - destruct x; try done; intros [= <-]; (split; [done|]);
      (split; [done|]); eexists; (split; [done|]); done.
  - by apply last_None in Hlast.
Qed.

Lemma group_step_last_group sep h out y h' out' processed :
  truthy sep = false →
  last_group_is_last_input processed out →
  group_step sep (h, out) y = Ok (h', out') →
  last_group_is_last_input (processed ++ [y]) out'.
Proof.
  intros Hsep Hinv Hstep x Hx.
  destruct y; cbn in Hstep.
  - rewrite Hsep in Hstep. cbn in Hstep.
    destruct out as [|g out]; cbn in Hstep.
    { injection Hstep as <- <-. done. }
    unfold append_to_last in Hstep.
    destruct (last (g :: out)) as [[items|z]|] eqn:Hlast; [| |done].
    + injection Hstep as <- <-. by rewrite last_snoc in Hx.
    + destruct z; try done. injection Hstep as <- <-.
      rewrite Hlast in Hx. injection Hx as <-. left. by eexists.
  - injection Hstep as <- <-. rewrite last_snoc in Hx.
    injection Hx as <-. left. by eexists.
  - injection Hstep as <- <-. rewrite last_snoc in Hx.
    injection Hx as <-. right. by rewrite last_snoc.
  - injection Hstep as <- <-. rewrite last_snoc in Hx.
    injection Hx as <-. right. by rewrite last_snoc.
  - injection Hstep as <- <-. rewrite last_snoc in Hx.
    injection Hx as <-. right. by rewrite last_snoc.
  - injection Hstep as <- <-. by rewrite last_snoc in Hx.
Qed.

Lemma group_loop_raise sep rest :
  truthy sep = false →
  ∀ processed h out e,
    last_group_is_last_input processed out →
    for_each (group_step sep) (h, out) rest = Raise e →
    e = AttributeError_append
    ∧ ∃ pre x y post,
        processed ++ rest = pre ++ x :: y :: post
        ∧ immutable_collection x ∧ singular y.
Proof.
  intros Hsep. induction rest as [|y rest IH]; intros processed h out e Hinv.
  { done. }
  rewrite for_each_cons.
  destruct (group_step sep (h, out) y) as [[h1 out1]|e1] eqn:Hstep.
  - rewrite bind_Ok. intros Hloop.
    apply (IH (processed ++ [y])) in Hloop as (He & pre & x & y' & post & H).
    + split; [done|]. exists pre, x, y', post. by rewrite <- app_assoc in H.
    + by eapply group_step_last_group.
  - rewrite bind_Raise. intros [= <-].
    apply group_step_raise in Hstep as (-> & Hy & x & Hlast & Hx); [|done].
    split; [done|].
    destruct (Hinv x Hlast) as [[l ->]|[Himm Hp]]; [by destruct (Hx l)|].
    apply last_Some in Hp as [pre ->].
    exists pre, x, y, rest. by rewrite <- app_assoc.
Qed.

(** X3: the grouping raises exactly when [separate] is given as false and
    some tuple or view of a mapping is directly followed by a singular
    input; the exception is then the [AttributeError] of
    [out[-1].append(x)], and no other exception is ever raised. *)
Theorem X3_grouping_raises_iff h inputs sep e :
  _group_axes_data h inputs sep = Raise e
  ↔ e = AttributeError_append ∧ sep = Some false
    ∧ ∃ pre x y post,
        inputs = pre ++ x :: y :: post
        ∧ immutable_collection x ∧ singular y.
Proof.
  assert (last_group_is_last_input [] []) as Hinit by done.
  split.
  - intros Hraise. destruct (decide (sep = Some false)) as [->|Hsep].
    + unfold _group_axes_data in Hraise. rewrite auto_separate_given in Hraise.
      apply (group_loop_raise (Some false) _ eq_refl [] h [] e Hinit) in Hraise
        as (-> & H). done.
    + destruct sep as [[]|]; [|done|].
      * rewrite group_axes_data_separated in Hraise; [done|].
        by rewrite auto_separate_given.
      * destruct (group_axes_data_unspecified_returns h inputs) as [out Hout].
        congruence.
  - intros (-> & -> & pre & x & y & post & -> & Hx & Hy).
    unfold _group_axes_data. rewrite auto_separate_given, for_each_app.
    destruct (for_each _ (h, []) pre) as [[h1 out1]|e1] eqn:Hpre.
    + rewrite bind_Ok, for_each_cons.
      assert (group_step (Some false) (h1, out1) x
              = Ok (h1, out1 ++ [Given x])) as ->
        by (by destruct x).
      rewrite bind_Ok, for_each_cons.
      assert (group_step (Some false) (h1, out1 ++ [Given x]) y
              = Raise AttributeError_append) as ->; [|done].
      apply singular_Data in Hy as (ty & u & n & ->). cbn.
      assert (not_empty (out1 ++ [Given x]) = true) as -> by by destruct out1.
      cbn. unfold append_to_last. rewrite last_snoc. by destruct x.
    + rewrite bind_Raise.
      apply (group_loop_raise (Some false) _ eq_refl [] h [] e1 Hinit) in Hpre
        as (-> & _). done.
Qed.

Lemma group_step_grows sep h out x h' out' :
  group_step sep (h, out) x = Ok (h', out') →
  (∃ g, out' = out ++ [g]) ∨ (out ≠ [] ∧ length out' = length out).
Proof.
  assert (∀ g, Ok (h, out ++ [g]) = Ok (h', out') →
               (∃ g, out' = out ++ [g])
               ∨ (out ≠ [] ∧ length out' = length out)) as Hpush.
  { intros g [= <- <-]. left. by eexists. }
  destruct x; try apply Hpush. cbn.
  destruct (truthy sep || _) eqn:Hcond; [apply Hpush|].
  unfold append_to_last.
  destruct (last out) as [[items|z]|] eqn:Hlast; [| |done].
  - intros [= <- <-]. right. apply last_Some in Hlast as [out0 ->].
    rewrite removelast_last, !length_app. split; [by destruct out0|done].
  - destruct z; try done. intros [= <- <-]. right.
    split; [|done]. intros ->. done.
Qed.

Lemma group_loop_grows sep inputs :
  ∀ h out h' out',
    for_each (group_step sep) (h, out) inputs = Ok (h', out') →
    (length out ≤ length out' ≤ length out + length inputs)%nat
    ∧ (out ≠ [] ∨ inputs ≠ [] → out' ≠ []).
Proof.
  induction inputs as [|x inputs IH]; intros h out h' out'.
  { intros [= <- <-]. split; [cbn; lia|]. by intros [?|?]. }
  rewrite for_each_cons.
  destruct (group_step sep (h, out) x) as [[h1 out1]|e] eqn:Hstep; [|done].
  rewrite bind_Ok. intros [Hlen Hne]%IH.
  apply group_step_grows in Hstep as [[g ->]|[Hout Hlen1]].
  - rewrite length_app in Hlen. cbn in *. split; [lia|].
    intros _. apply Hne. left. by destruct out.
  - cbn. split; [lia|]. intros _. apply Hne. left.
    intros ->. by destruct out.
Qed.

(** X4: when the grouping returns, it has made at most one group per
    input, and at least one group unless there is no input: the number of
    axes lies between one and the number of data items. *)
Theorem X4_group_count_bounds h inputs sep h' out :
  _group_axes_data h inputs sep = Ok (h', out) →
  (length out ≤ length inputs)%nat ∧ (inputs ≠ [] → out ≠ []).
Proof.
  intros [Hlen Hne]%group_loop_grows. cbn in Hlen. split; [lia|].
  intros ?. apply Hne. by right.
Qed.

Lemma X4_group_count_bounds_witness :
  _group_axes_data ∅ [int 1; int 2; PTuple [int 3]] None
  = Ok (∅, [Fresh [int 1]; Fresh [int 2]; Given (PTuple [int 3])])
  ∧ (length [Fresh [int 1]; Fresh [int 2]; Given (PTuple [int 3])]
     ≤ length [int 1; int 2; PTuple [int 3]])%nat.
Proof.
  split; [reflexivity|].
  exact (proj1 (X4_group_count_bounds ∅ [int 1; int 2; PTuple [int 3]] None
                  ∅ _ eq_refl)).
Defined.

Lemma group_loop_extends_list l xs :
  Forall singular xs →
  ∀ h, ∃ h',
    for_each (group_step (Some false)) (h, [Given (PList l)]) xs
    = Ok (h', [Given (PList l)])
    ∧ h' !!! l = (h !!! l) ++ xs
    ∧ ∀ l', l' ≠ l → h' !! l' = h !! l'.
Proof.
  induction 1 as [|x xs Hx _ IH]; intros h.
  { exists h. by rewrite app_nil_r. }
  rewrite for_each_cons.
  apply singular_Data in Hx as (ty & u & n & ->).
  assert (group_step (Some false) (h, [Given (PList l)]) (Data ty u n)
          = Ok (<[l := (h !!! l) ++ [Data ty u n]]> h, [Given (PList l)]))
    as -> by done.
  rewrite bind_Ok.
  destruct (IH (<[l := (h !!! l) ++ [Data ty u n]]> h))
    as (h' & -> & Hl & Hother).
  exists h'. split; [done|]. split.
  - rewrite Hl, lookup_total_insert_eq, <- app_assoc. done.
  - intros l' Hne. rewrite Hother by done. by apply lookup_insert_ne.
Qed.

(** X5: with [separate=False], a list of the caller followed by singular
    inputs is itself the one group returned, and it has been extended in
    place: after the call the caller's list holds its former items
    followed by those inputs; every other list is as it was. *)
Theorem X5_caller_list_extended h l xs :
  Forall singular xs →
  ∃ h',
    _group_axes_data h (PList l :: xs) (Some false)
    = Ok (h', [Given (PList l)])
    ∧ h' !!! l = (h !!! l) ++ xs
    ∧ ∀ l', l' ≠ l → h' !! l' = h !! l'.
Proof.
  intros Hall. unfold _group_axes_data.
  rewrite auto_separate_given, for_each_cons. cbn [group_step].
  assert (isinstance (PList l) iterable_types = true) as -> by done.
  rewrite bind_Ok. by apply group_loop_extends_list.
Qed.

Lemma X5_caller_list_extended_witness :
  Forall singular [int 3; int 4]
  ∧ ∃ h',
      _group_axes_data {[7 := [int 1; int 2]]} [PList 7; int 3; int 4]
                       (Some false)
      = Ok (h', [Given (PList 7)])
      ∧ h' !!! 7 = ({[7 := [int 1; int 2]]} : store) !!! 7 ++ [int 3; int 4]
      ∧ ∀ l', l' ≠ 7 → h' !! l' = ({[7 := [int 1; int 2]]} : store) !! l'.
Proof.
  assert (Forall singular [int 3; int 4]) as Hall by (repeat constructor).
  split; [exact Hall|].
  exact (X5_caller_list_extended {[7 := [int 1; int 2]]} 7 [int 3; int 4]
           Hall).
Defined.

(** ** The unit probe: what it depends on *)

(** X6: the answer of the probe depends only on the set of [xunit]
    values found: the order of the items, repeated units and items
    without an [xunit] make no difference. *)
Theorem X6_probe_depends_on_unit_set data1 data2 :
  (∀ u, (∃ x, x ∈ data1 ∧ xunit_of x = Some u)
        ↔ (∃ x, x ∈ data2 ∧ xunit_of x = Some u)) →
  _parse_xscale data1 = _parse_xscale data2.
Proof.
  intros Hsame.
  assert (collect_units data1 = collect_units data2) as Hunits.
  { apply set_eq. intros u. by rewrite !elem_of_collect_units. }
  unfold _parse_xscale. by rewrite Hunits.
Qed.

Lemma X6_probe_depends_on_unit_set_witness :
  _parse_xscale [timeseries 1; int 2; timeseries 3]
  = _parse_xscale [timeseries 3; timeseries 3; timeseries 1].
Proof.
  apply (X6_probe_depends_on_unit_set
           [timeseries 1; int 2; timeseries 3]
           [timeseries 3; timeseries 3; timeseries 1]).
  intros u. split; intros (x & Hx%list_elem_of_In & Hu); cbn in Hx.
  - exists (timeseries 1). split; [apply list_elem_of_In; cbn; auto|].
    destruct Hx as [<-|[<-|[<-|[]]]]; done.
  - exists (timeseries 1). split; [apply list_elem_of_In; cbn; auto|].
    destruct Hx as [<-|[<-|[<-|[]]]]; done.
Defined.

(** ** [_init_axes]: layout and errors *)

(** X7: when [_init_axes] returns, the figure has exactly one axes per
    grid cell, created in row-major order: the axes number
    [row * ncols + col] stands at [(row, col)]. *)
Theorem X7_one_axes_per_cell h data method xscale sharex sharey geometry
  separate fig_axes :
  _init_axes h data method xscale sharex sharey geometry separate
  = Ok fig_axes →
  ∃ nrows ncols,
    default (length fig_axes, 1) geometry = (nrows, ncols)
    ∧ length fig_axes = nrows * ncols
    ∧ ∀ row col, row < nrows → col < ncols →
        ∃ ax, fig_axes !! (row * ncols + col) = Some ax
              ∧ ax_pos ax = (row, col).
Proof.
  intros (h' & groups & nrows & ncols & _ & Hgeo & Hsize & Hlen & Haxes)
    %init_axes_Ok.
  exists nrows, ncols. rewrite Hlen. split; [done|]. split; [done|].
  intros row col Hrow Hcol.
  destruct (lookup_lt_is_Some_2 groups (row * ncols + col)) as [grp Hgrp];
    [nia|].
  apply Haxes in Hgrp as (ax & r & c & Hax & Hpos & Hcreated).
  rewrite grid_positions_lookup in Hpos by done. injection Hpos as <- <-.
  exists ax. split; [done|]. apply Hcreated.
Qed.

Lemma X7_one_axes_per_cell_witness :
  ∃ fig_axes,
    _init_axes ∅ [int 1; int 2; int 3; int 4; int 5; int 6] "plot" None
               (ShareBool false) (ShareBool false) (Some (2, 3)) None
    = Ok fig_axes
    ∧ ∃ nrows ncols,
        default (length fig_axes, 1) (Some (2, 3)) = (nrows, ncols)
        ∧ length fig_axes = nrows * ncols
        ∧ ∀ row col, row < nrows → col < ncols →
            ∃ ax, fig_axes !! (row * ncols + col) = Some ax
                  ∧ ax_pos ax = (row, col).
Proof.
  eexists. split; [reflexivity|].
  exact (X7_one_axes_per_cell ∅ [int 1; int 2; int 3; int 4; int 5; int 6]
           "plot" None (ShareBool false) (ShareBool false) (Some (2, 3))
           None _ eq_refl).
Defined.

Lemma axes_loop_raise h method xscale sharex sharey nrows ncols items e :
  ∀ st,
    for_each (axes_step h method xscale sharex sharey nrows ncols) st items
    = Raise e →
    e = KeyError sharex ∨ e = KeyError sharey.
Proof.
  induction items as [|[grp [row col]] items IH]; intros st; [done|].
  rewrite for_each_cons. destruct st as [axarr fig_axes].
  destruct (axes_step _ _ _ _ _ _ _ _ _) as [st'|e'] eqn:Hstep.
  - rewrite bind_Ok. apply IH.
  - rewrite bind_Raise. intros [= <-].
    unfold axes_step, getitem in Hstep.
    destruct (_ !! sharex); [|injection Hstep as <-; by left].
    rewrite bind_Ok in Hstep.
    destruct (_ !! sharey); [done|injection Hstep as <-; by right].
Qed.

(** The grouping raises nothing but the [AttributeError] of [append]. *)
Lemma group_axes_data_raise h inputs sep e :
  _group_axes_data h inputs sep = Raise e → e = AttributeError_append.
Proof.
  intros Hraise. destruct sep as [[]|].
  - rewrite group_axes_data_separated in Hraise; [done|].
    by rewrite auto_separate_given.
  - unfold _group_axes_data in Hraise. rewrite auto_separate_given in Hraise.
    assert (last_group_is_last_input [] []) as Hinit by done.
    by apply (group_loop_raise (Some false) _ eq_refl [] h [] e Hinit)
      in Hraise as [-> _].
  - destruct (group_axes_data_unspecified_returns h inputs) as [out Hout].
    congruence.
Qed.

(** X8: [_init_axes] raises the [ValueError] of the grid exactly when the
    grouping returned, a geometry was given, and its [rows * cols]
    differs from the number of groups; the error carries that number and
    the two dimensions. *)
Theorem X8_grid_error_iff h data method xscale sharex sharey geometry
  separate naxes nrows ncols :
  _init_axes h data method xscale sharex sharey geometry separate
  = Raise (ValueError_grid naxes nrows ncols)
  ↔ geometry = Some (nrows, ncols)
    ∧ nrows * ncols ≠ naxes
    ∧ ∃ h' groups,
        _group_axes_data h data (forced_separate geometry data separate)
        = Ok (h', groups)
        ∧ length groups = naxes.
Proof.
  split.
  - destruct geometry as [[r c]|];
      [|by intros ?%init_axes_default_geometry].
    rewrite init_axes_unfold.
    destruct (_group_axes_data _ _ _) as [[h' groups]|e] eqn:Hgroups.
    + rewrite bind_Ok. cbn. case_bool_decide as Hsize.
      * intros [= <- <- <-]. split; [done|]. split; [done|]. by eauto.
      * destruct (for_each _ _ _) as [[axarr axs]|e] eqn:Hloop; [done|].
        rewrite bind_Raise. intros [= ->].
        by apply axes_loop_raise in Hloop as [?|?].
    + rewrite bind_Raise. intros [= ->].
      by apply group_axes_data_raise in Hgroups.
  - intros (-> & Hne & h' & groups & Hgroups & <-).
    by apply (init_axes_grid_mismatch _ _ _ _ _ _ _ _ h').
Qed.

Lemma getitem_shared_with_unknown axarr row col key :
  key ∉ share_keys →
  getitem (shared_with axarr row col) key = Raise (KeyError key).
Proof.
  intros Hkey. destruct (getitem _ key) as [v|e] eqn:Hget.
  - destruct Hkey. apply list_elem_of_In. cbn.
    apply getitem_shared_with_inv in Hget as [[-> _]|[[-> _]|[[-> _]|[-> _]]]];
      auto.
  - unfold getitem in Hget. by destruct (_ !! key).
Qed.

Lemma axes_step_unknown_sharex h method xscale sharex sharey nrows ncols
  axarr fig_axes grp row col :
  sharex ∉ share_keys →
  axes_step h method xscale sharex sharey nrows ncols (axarr, fig_axes)
            (grp, (row, col)) = Raise (KeyError sharex).
Proof.
  intros Hx. unfold axes_step.
  by rewrite (getitem_shared_with_unknown _ _ _ sharex).
Qed.

Lemma axes_step_unknown_sharey h method xscale sharex sharey nrows ncols
  axarr fig_axes grp row col :
  sharex ∈ share_keys → sharey ∉ share_keys →
  axes_step h method xscale sharex sharey nrows ncols (axarr, fig_axes)
            (grp, (row, col)) = Raise (KeyError sharey).
Proof.
  intros Hx Hy. unfold axes_step.
  destruct (getitem_shared_with axarr row col _ Hx) as [sx ->].
  by rewrite bind_Ok, (getitem_shared_with_unknown _ _ _ sharey).
Qed.

(** X9: an unknown share specification is found out only when the first
    axes is created: with at least one group and a fitting grid,
    [_init_axes] raises [KeyError] for [sharex] if it is no key of the
    table, else for [sharey] if that one is no key; with no group at all
    the body of the loop never runs and the list of axes returned is
    empty, whatever the specifications are. *)
Theorem X9_unknown_share_key h data method xscale sharex sharey geometry
  separate h' groups nrows ncols :
  _group_axes_data h data (forced_separate geometry data separate)
  = Ok (h', groups) →
  default (length groups, 1) geometry = (nrows, ncols) →
  nrows * ncols = length groups →
  (groups ≠ [] → share_spec sharex ∉ share_keys →
   _init_axes h data method xscale sharex sharey geometry separate
   = Raise (KeyError (share_spec sharex)))
  ∧ (groups ≠ [] → share_spec sharex ∈ share_keys →
     share_spec sharey ∉ share_keys →
     _init_axes h data method xscale sharex sharey geometry separate
     = Raise (KeyError (share_spec sharey)))
  ∧ (groups = [] →
     _init_axes h data method xscale sharex sharey geometry separate
     = Ok []).
Proof.
  intros Hgroups Hgeo Hsize.
  rewrite init_axes_unfold, Hgroups, bind_Ok. cbn zeta. rewrite Hgeo.
  rewrite bool_decide_eq_false_2 by (intros ?; done).
  pose proof (grid_positions_length nrows ncols) as Hpos.
  assert (groups ≠ [] →
          ∃ grp row col items,
            zip groups (grid_positions nrows ncols)
            = (grp, (row, col)) :: items) as Hfirst.
  { intros Hne. destruct groups as [|grp groups]; [done|].
    destruct (grid_positions nrows ncols) as [|[row col] ps];
      [cbn in *; lia|].
    by eexists _, _, _, _. }
  split; [|split].
  - intros (grp & row & col & items & ->)%Hfirst Hx.
    by rewrite for_each_cons, axes_step_unknown_sharex.
  - intros (grp & row & col & items & ->)%Hfirst Hx Hy.
    by rewrite for_each_cons, axes_step_unknown_sharey.
  - intros ->. done.
Qed.

Lemma X9_unknown_share_key_witness :
  _init_axes ∅ [int 1; int 2] "plot" None (ShareStr "both") (ShareBool true)
             None None
  = Raise (KeyError "both")
  ∧ _init_axes ∅ [] "plot" None (ShareStr "both") (ShareBool true) None None
    = Ok [].
Proof.
  assert (share_spec (ShareStr "both") ∉ share_keys) as Hkey.
  { intros H%list_elem_of_In. cbn in H. intuition discriminate. }
  split.
  - exact (proj1 (X9_unknown_share_key ∅ [int 1; int 2] "plot" None
                    (ShareStr "both") (ShareBool true) None None
                    ∅ [Fresh [int 1; int 2]] 1 1 eq_refl eq_refl eq_refl)
             ltac:(done) Hkey).
  - exact (proj2 (proj2 (X9_unknown_share_key ∅ [] "plot" None
                    (ShareStr "both") (ShareBool true) None None
                    ∅ [] 0 1 eq_refl eq_refl eq_refl)) eq_refl).
Defined.

(** X10: each axes draws its own group, the groups being those the
    grouping returned, in order: the plot method is called once per
    object of the group for the image-like methods [imshow] and
    [pcolormesh], and once with the whole group for every other
    method. *)
Theorem X10_drawing_dispatch h data method xscale sharex sharey geometry
  separate fig_axes :
  _init_axes h data method xscale sharex sharey geometry separate
  = Ok fig_axes →
  ∃ h' groups,
    _group_axes_data h data (forced_separate geometry data separate)
    = Ok (h', groups)
    ∧ length fig_axes = length groups
    ∧ ∀ i grp,
        groups !! i = Some grp →
        ∃ ax,
          fig_axes !! i = Some ax
          ∧ (method ∈ ["imshow"; "pcolormesh"] →
             ax_calls ax = (λ o, [o]) <$> contents h' grp)
          ∧ (method ∉ ["imshow"; "pcolormesh"] →
             ax_calls ax = [contents h' grp])
          ∧ drawn ax = contents h' grp.
Proof.
  intros (h' & groups & nrows & ncols & Hgroups & _ & _ & Hlen & Haxes)
    %init_axes_Ok.
  exists h', groups. split; [done|]. split; [done|].
  intros i grp Hgrp.
  apply Haxes in Hgrp as (ax & row & col & Hax & _ & Hcreated).
  destruct Hcreated as (_ & _ & _ & _ & Hcalls & _).
  exists ax. split; [done|].
  unfold drawn. rewrite Hcalls, drawn_plot_calls. unfold plot_calls.
  split; [|split; [|done]]; intros Hm.
  - by rewrite bool_decide_eq_true_2.
  - by rewrite bool_decide_eq_false_2.
Qed.

Lemma X10_drawing_dispatch_witness :
  ∃ ax,
    _init_axes ∅ [int 1; int 2] "imshow" None (ShareBool false)
               (ShareBool false) None (Some false) = Ok [ax]
    ∧ ax_calls ax = [[int 1]; [int 2]]
    ∧ ∃ h' groups,
        _group_axes_data ∅ [int 1; int 2]
          (forced_separate None [int 1; int 2] (Some false))
        = Ok (h', groups)
        ∧ length [ax] = length groups
        ∧ ∀ i grp,
            groups !! i = Some grp →
            ∃ ax',
              [ax] !! i = Some ax'
              ∧ ("imshow" ∈ ["imshow"; "pcolormesh"] →
                 ax_calls ax' = (λ o, [o]) <$> contents h' grp)
              ∧ ("imshow" ∉ ["imshow"; "pcolormesh"] →
                 ax_calls ax' = [contents h' grp])
              ∧ drawn ax' = contents h' grp.
Proof.
  eexists. split; [reflexivity|]. split; [reflexivity|].
  exact (X10_drawing_dispatch ∅ [int 1; int 2] "imshow" None
           (ShareBool false) (ShareBool false) None (Some false)
           _ eq_refl).
Defined.

(** ** The constructor: x-scale and figure size *)

Lemma init_axes_xscale_given h data method xscale sharex sharey geometry
  separate fig_axes :
  xscale_given xscale = true →
  _init_axes h data method xscale sharex sharey geometry separate
  = Ok fig_axes →
  ∀ ax, ax ∈ fig_axes → ax_xscale ax = xscale.
Proof.
  intros Hgiven
    (h' & groups & nrows & ncols & _ & _ & _ & Hlen & Haxes)%init_axes_Ok
    ax (i & Hi)%list_elem_of_lookup.
  destruct (lookup_lt_is_Some_2 groups i) as [grp Hgrp].
  { apply lookup_lt_Some in Hi. lia. }
  apply Haxes in Hgrp as (ax' & row & col & Hax' & _ & Hcreated).
  assert (ax' = ax) as -> by congruence.
  destruct Hcreated as (_ & _ & _ & Hscale & _). by rewrite Hscale, Hgiven.
Qed.

(** X11: an x-scale given by the caller (a non-empty string) is the
    x-scale of every axes, whatever the units of the data; the figure
    gets the wide default size [(12, 6)] exactly when the projection is
    "segments" or that x-scale is one of [GPS_SCALES], and a size given
    by the caller is kept in every case. *)
Theorem X11_explicit_xscale GPS_SCALES h data sc kw_figsize projection method
  sharex sharey geometry separate fig :
  sc ≠ "" →
  Plot_init GPS_SCALES h data (Some (Some sc)) kw_figsize projection method
            sharex sharey geometry separate = Ok fig →
  (∀ ax, ax ∈ fig_axes fig → ax_xscale ax = Some sc)
  ∧ fig_figsize fig
    = (if bool_decide (projection = Some "segments")
          || bool_decide (sc ∈ GPS_SCALES)
       then setdefault kw_figsize (12 # 1, 6 # 1)%Q
       else kw_figsize).
Proof.
  intros Hsc. unfold Plot_init.
  destruct (group_axes_data_flat_returns h data) as [flat ->].
  rewrite bind_Ok. cbn [setdefault is_gps_scale].
  assert (default None
            (if bool_decide (projection = Some "segments")
                || bool_decide (sc ∈ GPS_SCALES)
             then Some (Some sc) else Some (Some sc)) = Some sc) as ->
    by by destruct (_ || _).
  destruct (_init_axes _ _ _ _ _ _ _ _) as [axs|e] eqn:Haxes; [|done].
  rewrite bind_Ok. intros [= <-]. cbn [fig_axes fig_figsize].
  split; [|done].
  eapply init_axes_xscale_given; [|done]. cbn.
  by rewrite bool_decide_eq_false_2.
Qed.

Lemma X11_explicit_xscale_witness :
  ∃ fig,
    "log" ≠ ""
    ∧ Plot_init ["auto-gps"] ∅ [timeseries 1; timeseries 2] (Some (Some "log"))
                None None "plot" (ShareBool false) (ShareBool false) None
                None = Ok fig
    ∧ (∀ ax, ax ∈ fig_axes fig → ax_xscale ax = Some "log")
    ∧ fig_figsize fig = None.
Proof.
  eexists. assert ("log" ≠ "") as Hsc by done.
  split; [exact Hsc|]. split; [reflexivity|].
  exact (X11_explicit_xscale ["auto-gps"] ∅ [timeseries 1; timeseries 2]
           "log" None None "plot" (ShareBool false) (ShareBool false) None
           None _ Hsc eq_refl).
Defined.

Lemma parse_xscale_one_time_unit data u :
  data ≠ [] → Forall (λ x, xunit_of x = Some u) data →
  physical_type u = "time" →
  _parse_xscale data = Some "auto-gps".
Proof.
  intros Hne Hall Htime.
  assert (collect_units data = {[u]}) as Hunits.
  { apply set_eq. intros v.
    rewrite elem_of_collect_units, elem_of_singleton. split.
    - intros (x & Hx & Hv). rewrite Forall_forall in Hall.
      specialize (Hall x Hx). congruence.
    - intros ->. destruct data as [|x data]; [done|].
      exists x. split; [apply list_elem_of_here|].
      by apply Forall_cons in Hall as [? _]. }
  unfold _parse_xscale.
  rewrite Hunits, size_singleton, elements_singleton.
  rewrite bool_decide_eq_false_2 by (intros ?; done).
  by rewrite bool_decide_eq_true_2.
Qed.

(** X12: for singular data that all carry one [xunit] of physical type
    "time", with no x-scale given and "auto-gps" among [GPS_SCALES], the
    constructor gives every axes the x-scale "auto-gps" and the figure
    the size [(12, 6)] unless the caller gave a size. *)
Theorem X12_time_data_default GPS_SCALES h data u kw_figsize projection
  method sharex sharey geometry separate fig :
  data ≠ [] →
  Forall (λ x, singular x ∧ xunit_of x = Some u) data →
  physical_type u = "time" →
  "auto-gps" ∈ GPS_SCALES →
  Plot_init GPS_SCALES h data None kw_figsize projection method
            sharex sharey geometry separate = Ok fig →
  (∀ ax, ax ∈ fig_axes fig → ax_xscale ax = Some "auto-gps")
  ∧ fig_figsize fig = setdefault kw_figsize (12 # 1, 6 # 1)%Q.
Proof.
  intros Hne Hall Htime Hgps. unfold Plot_init.
  rewrite group_axes_data_flat_singular, bind_Ok
    by (eapply Forall_impl; [exact Hall|by intros ? [? _]]).
  rewrite (parse_xscale_one_time_unit data u); try done;
    [|eapply Forall_impl; [exact Hall|by intros ? [_ ?]]].
  cbn [setdefault is_gps_scale].
  rewrite (bool_decide_eq_true_2 _ Hgps), orb_true_r. cbn [default].
  destruct (_init_axes _ _ _ _ _ _ _ _) as [axs|e] eqn:Haxes; [|done].
  rewrite bind_Ok. intros [= <-]. cbn [fig_axes fig_figsize].
  split; [|done]. by eapply init_axes_xscale_given; [|done].
Qed.

Lemma X12_time_data_default_witness :
  ∃ fig,
    Plot_init ["auto-gps"] ∅ [timeseries 1; timeseries 2] None None None
              "plot" (ShareBool false) (ShareBool false) None None = Ok fig
    ∧ (∀ ax, ax ∈ fig_axes fig → ax_xscale ax = Some "auto-gps")
    ∧ fig_figsize fig = Some (12 # 1, 6 # 1)%Q.
Proof.
  eexists. split; [reflexivity|].
  assert ([timeseries 1; timeseries 2] ≠ []) as Hne by done.
  assert (Forall (λ x, singular x ∧ xunit_of x = Some second)
                 [timeseries 1; timeseries 2]) as Hall
    by (repeat constructor).
  assert ("auto-gps" ∈ ["auto-gps"]) as Hgps by apply list_elem_of_here.
  exact (X12_time_data_default ["auto-gps"] ∅ [timeseries 1; timeseries 2]
           second None None "plot" (ShareBool false) (ShareBool false) None
           None _ Hne Hall eq_refl Hgps eq_refl).
Defined.

(** ** The segments bar and its anchor *)

(** X13: for a location "top" or "bottom", [add_segments_bar] hides the
    x tick labels and clears the x-axis label of the anchor axes exactly
    when the new axes shares its x axis with the anchor ([sharex=True],
    or [sharex] is the anchor itself); then the divider is asked for an
    axes sharing with the anchor, and otherwise no label of any axes is
    touched. *)
Theorem X13_bar_hides_anchor_labels gca has_locator new_axes ax height pad
  sharex location :
  location ∈ ["top"; "bottom"] →
  (Exists (λ e, hides_xlabels e = true)
     (fst (add_segments_bar gca has_locator new_axes ax height pad sharex
                            location))
   ↔ sharex = BarTrue ∨ sharex = BarAxes (default gca ax))
  ∧ (sharex = BarTrue ∨ sharex = BarAxes (default gca ax) →
     let trace := fst (add_segments_bar gca has_locator new_axes ax height
                                        pad sharex location) in
     AppendAxes (default gca ax) location height pad (Some (default gca ax))
     ∈ trace
     ∧ HideXTickLabels (default gca ax) ∈ trace
     ∧ SetXLabel (default gca ax) "" ∈ trace).
Proof.
  intros Hloc.
  assert (∃ anchor, default gca ax = anchor) as [anchor Hanchor] by by eexists.
  rewrite Hanchor. cbn zeta.
  assert (∃ pre kw,
            fst (add_segments_bar gca has_locator new_axes ax height pad
                                  sharex location)
            = pre ++ AppendAxes anchor location height pad kw
                :: (if bool_decide (kw = Some anchor)
                    then [SetAutoscalexOn new_axes anchor;
                          SetXlim new_axes anchor;
                          HideXTickLabels anchor; SetXLabel anchor ""]
                    else [])
                   ++ [PlotSegments new_axes; GridOff new_axes;
                       Autoscale new_axes]
            ∧ Forall (λ e, hides_xlabels e = false) pre
            ∧ (kw = Some anchor
               ↔ sharex = BarTrue ∨ sharex = BarAxes anchor))
    as (pre & kw & -> & Hpre & Hkw).
  { exists ((match ax with Some _ => [] | None => [Gca] end)
            ++ (if has_locator anchor
                then [GetAxesLocator anchor; GetAxesLocator anchor]
                else [GetAxesLocator anchor; MakeAxesLocatable anchor])),
           (match sharex with
            | BarTrue => Some anchor
            | BarFalse => None
            | BarAxes a => Some a
            end).
    split; [|split].
    - unfold add_segments_bar. rewrite (bool_decide_eq_true_2 _ Hloc).
      cbn [negb].
      destruct ax as [a|]; cbn in Hanchor; subst anchor;
        destruct (has_locator _); reflexivity.
    - destruct ax; destruct (has_locator anchor); repeat constructor.
    - destruct sharex as [| |b].
      + split; [auto|done].
      + split; [done|]. intros [?|?]; done.
      + split; [intros [= ->]; auto|]. intros [?|[= ->]]; done. }
  rewrite <- Hkw. split.
  - rewrite Exists_app, Exists_cons, Exists_app. split.
    + intros [Hex|[?|[Hex|Hex]]]; [|done| |].
      * apply Exists_exists in Hex as (e & He & Hhide).
        rewrite Forall_forall in Hpre. specialize (Hpre e He). congruence.
      * case_bool_decide; [done|]. by apply Exists_nil in Hex.
      * repeat (apply Exists_cons in Hex as [?|Hex]; [done|]).
        by apply Exists_nil in Hex.
    + intros Heq. right; right; left.
      rewrite bool_decide_eq_true_2 by done.
      do 2 apply Exists_cons_tl. by apply Exists_cons_hd.
  - intros ->. rewrite bool_decide_eq_true_2 by done.
    rewrite !elem_of_app. repeat split; right.
    + apply list_elem_of_here.
    + do 3 apply list_elem_of_further. apply list_elem_of_here.
    + do 4 apply list_elem_of_further. apply list_elem_of_here.
Qed.

Lemma X13_bar_hides_anchor_labels_witness :
  ("top" ∈ ["top"; "bottom"])
  ∧ SetXLabel 4 ""
    ∈ fst (add_segments_bar 0 (λ _, true) 9 (Some 4) (2 # 10) (1 # 10)
                            BarTrue "top").
Proof.
  assert ("top" ∈ ["top"; "bottom"]) as Hloc by apply list_elem_of_here.
  split; [exact Hloc|].
  exact (proj2 (proj2 (proj2
           (X13_bar_hides_anchor_labels 0 (λ _, true) 9 (Some 4) (2 # 10)
              (1 # 10) BarTrue "top" Hloc) (or_introl eq_refl)))).
Defined.

(** ** Subplot parameters *)

(** X14: [_parse_subplotpars] writes at most the key "subplotpars": every
    other keyword is left as it is; a "subplotpars" given by the caller
    is never replaced; and when none is given, the key is set, to the
    parameters computed from the figure size (the "figsize" keyword, or
    the default of [rcParams]), exactly when the four
    [figure.subplot.*] entries of [rcParams] equal matplotlib's
    defaults. *)
Theorem X14_subplotpars_only (V : Type) `{EqDecision V}
  (rcParams MPL_RCPARAMS : string → V)
  (get_subplot_params : V → V) (kwargs : gmap string V) :
  (∀ key, key ≠ "subplotpars" →
     _parse_subplotpars V rcParams MPL_RCPARAMS get_subplot_params kwargs
     !! key = kwargs !! key)
  ∧ (is_Some (kwargs !! "subplotpars") →
     _parse_subplotpars V rcParams MPL_RCPARAMS get_subplot_params kwargs
     = kwargs)
  ∧ (kwargs !! "subplotpars" = None →
     _parse_subplotpars V rcParams MPL_RCPARAMS get_subplot_params kwargs
     !! "subplotpars"
     = if bool_decide
            (Forall (λ pos, rcParams ("figure.subplot." +:+ pos)
                            = MPL_RCPARAMS ("figure.subplot." +:+ pos))
                    ["left"; "bottom"; "right"; "top"])
       then Some (get_subplot_params
                    (default (rcParams "figure.figsize")
                             (kwargs !! "figsize")))
       else None).
Proof.
  unfold _parse_subplotpars. split; [|split].
  - intros key Hkey. destruct (_ && _); [|done].
    by rewrite lookup_insert_ne.
  - intros [v Hv]. rewrite Hv. done.
  - intros Hnone. rewrite Hnone, bool_decide_eq_true_2 by done. cbn [andb].
    destruct (forallb _ _) eqn:Hall.
    + rewrite lookup_insert_eq, bool_decide_eq_true_2; [done|].
      apply Forall_forall. intros pos Hpos%list_elem_of_In.
      rewrite forallb_forall in Hall.
      by apply Hall, bool_decide_eq_true in Hpos.
    + rewrite Hnone, bool_decide_eq_false_2; [done|].
      intros Hpos. apply not_true_iff_false in Hall. apply Hall.
      apply forallb_forall. intros pos Hin%list_elem_of_In.
      rewrite Forall_forall in Hpos. by apply bool_decide_eq_true, Hpos.
Qed.

Lemma X14_subplotpars_only_witness :
  is_Some (({["subplotpars" := 3]} : gmap string nat) !! "subplotpars")
  ∧ _parse_subplotpars nat (λ _, 0) (λ _, 0) S {["subplotpars" := 3]}
    = {["subplotpars" := 3]}
  ∧ _parse_subplotpars nat (λ _, 0) (λ _, 0) S {["figsize" := 7]}
    !! "subplotpars" = Some 8.
Proof.
  assert (is_Some (({["subplotpars" := 3]} : gmap string nat)
                   !! "subplotpars")) as Hgiven by by eexists.
  split; [exact Hgiven|]. split.
  - exact (proj1 (proj2 (X14_subplotpars_only nat (λ _, 0) (λ _, 0) S
                           {["subplotpars" := 3]})) Hgiven).
  - assert (({["figsize" := 7]} : gmap string nat) !! "subplotpars" = None)
      as Hnone by reflexivity.
    rewrite (proj2 (proj2 (X14_subplotpars_only nat (λ _, 0) (λ _, 0) S
                             {["figsize" := 7]})) Hnone).
    reflexivity.
Defined.

(** ** Closing the figure *)

Lemma close_loop_lookup (axs : list nat) i ax :
  axs !! i = Some ax →
  (a ← axs; [SetXscale a "linear"; SetYscale a "linear"; Cla a]) !! (3 * i)
  = Some (SetXscale ax "linear")
  ∧ (a ← axs; [SetXscale a "linear"; SetYscale a "linear"; Cla a])
    !! (3 * i + 1) = Some (SetYscale ax "linear")
  ∧ (a ← axs; [SetXscale a "linear"; SetYscale a "linear"; Cla a])
    !! (3 * i + 2) = Some (Cla ax).
Proof.
  revert i. induction axs as [|a axs IH]; intros i Hi; [done|].
  rewrite bind_cons. destruct i as [|i].
  - injection Hi as ->. done.
  - cbn in Hi. apply IH in Hi as (Hx & Hy & Hc).
    replace (3 * S i) with (S (S (S (3 * i)))) by lia. done.
Qed.

Lemma close_loop_length (axs : list nat) :
  length (a ← axs; [SetXscale a "linear"; SetYscale a "linear"; Cla a])
  = 3 * length axs.
Proof.
  induction axs as [|a axs IH]; [done|].
  rewrite bind_cons, length_app, IH. cbn. lia.
Qed.

(** X15: [close] goes through the axes from the last created to the
    first; for each it sets the x and the y scale to "linear" and only
    then clears it; [pyplot.close] is called once, after every axes has
    been cleared. *)
Theorem X15_close_resets_then_clears fig_axes :
  length (close fig_axes) = 3 * length fig_axes + 1
  ∧ close fig_axes !! (3 * length fig_axes) = Some PyplotClose
  ∧ ∀ i ax,
      fig_axes !! i = Some ax →
      close fig_axes !! (3 * (length fig_axes - 1 - i))
      = Some (SetXscale ax "linear")
      ∧ close fig_axes !! (3 * (length fig_axes - 1 - i) + 1)
        = Some (SetYscale ax "linear")
      ∧ close fig_axes !! (3 * (length fig_axes - 1 - i) + 2)
        = Some (Cla ax).
Proof.
  unfold close.
  pose proof (close_loop_length (reverse fig_axes)) as Hlen.
  rewrite length_reverse in Hlen.
  split; [rewrite length_app, Hlen; cbn; lia|]. split.
  - rewrite lookup_app_r by lia. by rewrite Hlen, Nat.sub_diag.
  - intros i ax Hi. pose proof (lookup_lt_Some _ _ _ Hi) as Hlt.
    assert (reverse fig_axes !! (length fig_axes - 1 - i) = Some ax) as Hrev.
    { rewrite reverse_lookup by lia. rewrite <- Hi. f_equal. lia. }
    apply close_loop_lookup in Hrev as (Hx & Hy & Hc).
    rewrite !lookup_app_l by lia. done.
Qed.

Lemma X15_close_resets_then_clears_witness :
  [5; 8] !! 0 = Some 5
  ∧ close [5; 8] !! 3 = Some (SetXscale 5 "linear")
  ∧ close [5; 8] !! 5 = Some (Cla 5).
Proof.
  assert ([5; 8] !! 0 = Some 5) as Hi by done.
  destruct (proj2 (proj2 (X15_close_resets_then_clears [5; 8])) 0 5 Hi)
    as (Hx & _ & Hc).
  split; [exact Hi|]. split; [exact Hx|exact Hc].
Defined.

(** ** Axes by projection *)

Lemma lower_ascii_idempotent c : lower_ascii (lower_ascii c) = lower_ascii c.
Proof. by destruct c as [[] [] [] [] [] [] [] []]. Qed.

Lemma lower_string_idempotent s :
  lower_string (lower_string s) = lower_string s.
Proof.
  induction s as [|c s IH]; [done|]. cbn.
  by rewrite lower_ascii_idempotent, IH.
Qed.

(** X16: [get_axes] without a projection returns all axes; with one it
    returns, in the order of the figure, exactly the axes whose name is
    the lower-cased projection. So the argument is case-insensitive,
    while an axes whose own name is not in lower case is never found.
    ([str.lower] is taken as a function that is its own fixed point.) *)
Theorem X16_get_axes_by_name (lower : string → string) (Axes : Type)
  (name : Axes → string) (fig_axes : list Axes) :
  (∀ s, lower (lower s) = lower s) →
  get_axes lower Axes name fig_axes None = fig_axes
  ∧ (∀ p ax,
       ax ∈ get_axes lower Axes name fig_axes (Some p)
       ↔ ax ∈ fig_axes ∧ name ax = lower p)
  ∧ (∀ p, get_axes lower Axes name fig_axes (Some p)
          `sublist_of` fig_axes)
  ∧ (∀ p, get_axes lower Axes name fig_axes (Some (lower p))
          = get_axes lower Axes name fig_axes (Some p))
  ∧ (∀ p ax, name ax ≠ lower (name ax) →
             ax ∉ get_axes lower Axes name fig_axes (Some p)).
Proof.
  intros Hlower. unfold get_axes. split; [done|]. split; [|split; [|split]].
  - intros p ax. rewrite list_elem_of_filter. tauto.
  - intros p. apply sublist_filter.
  - intros p. by rewrite Hlower.
  - intros p ax Hname [Heq _]%list_elem_of_filter.
    apply Hname. by rewrite Heq, Hlower.
Qed.

Lemma X16_get_axes_by_name_witness :
  (∀ s, lower_string (lower_string s) = lower_string s)
  ∧ get_axes lower_string string id ["rectilinear"; "segments"; "polar"]
             (Some "Segments")
    = get_axes lower_string string id ["rectilinear"; "segments"; "polar"]
               (Some "segments")
  ∧ get_axes lower_string string id ["rectilinear"; "segments"; "polar"]
             (Some "SEGMENTS") = ["segments"].
Proof.
  split; [exact lower_string_idempotent|]. split; [|reflexivity].
  exact (proj1 (proj2 (proj2 (proj2
           (X16_get_axes_by_name lower_string string id
              ["rectilinear"; "segments"; "polar"]
              lower_string_idempotent)))) "Segments").
Defined.

(** ** Colour bars *)

(** X17: [colorbar] appends the new colorbar to [self.colorbars] in every
    case. With [emit] true it then gives every collection and image of
    the axes the normalisation and the colour map of the mappable,
    keeping the layers and their order; with [emit] false no layer is
    changed; and with [emit] true but no ['ax'] among the processed
    keywords it raises [KeyError], the colorbar being already
    recorded. *)
Theorem X17_colorbar_emit colorbars m cbar :
  (∀ ax,
     ∃ ax',
       colorbar colorbars m (Some ax) cbar true
       = (colorbars ++ [cbar], Some ax', Ok cbar)
       ∧ Forall (λ layer, m_norm layer = m_norm m ∧ m_cmap layer = m_cmap m)
           (collections ax' ++ images ax')
       ∧ m_layer <$> collections ax' = m_layer <$> collections ax
       ∧ m_layer <$> images ax' = m_layer <$> images ax)
  ∧ (∀ kw_ax,
       colorbar colorbars m kw_ax cbar false
       = (colorbars ++ [cbar], kw_ax, Ok cbar))
  ∧ colorbar colorbars m None cbar true
    = (colorbars ++ [cbar], None, Raise (KeyError "ax")).
Proof.
  split; [|done].
  intros ax. eexists. split; [reflexivity|]. cbn [collections images].
  split; [|split].
  - rewrite <- fmap_app. apply Forall_fmap, Forall_true. done.
  - rewrite <- list_fmap_compose. done.
  - rewrite <- list_fmap_compose. done.
Qed.

(** ** Labels and defaults *)

(** X18: [_init_axes] clears an x-axis label only under [sharex] "all"
    and only above the last row, and a y-axis label only under [sharey]
    "all" and only left of the last column; under "none", "row" and
    "col", in a grid of one row (for x) or of one column (for y, so with
    the default geometry), every label stays as drawn. *)
Theorem X18_label_cleared_iff h data method xscale sharex sharey geometry
  separate fig_axes :
  _init_axes h data method xscale sharex sharey geometry separate
  = Ok fig_axes →
  ∃ nrows ncols,
    default (length fig_axes, 1) geometry = (nrows, ncols)
    ∧ ∀ ax, ax ∈ fig_axes →
        (ax_xlabel ax = Drawn ∨ ax_xlabel ax = SetTo "")
        ∧ (ax_ylabel ax = Drawn ∨ ax_ylabel ax = SetTo "")
        ∧ (ax_xlabel ax = SetTo ""
           ↔ share_spec sharex = "all" ∧ (ax_pos ax).1 + 1 < nrows)
        ∧ (ax_ylabel ax = SetTo ""
           ↔ share_spec sharey = "all" ∧ (ax_pos ax).2 + 1 < ncols).
Proof.
  intros (h' & groups & nrows & ncols & _ & Hgeo & _ & Hlen & Haxes)
    %init_axes_Ok.
  exists nrows, ncols. rewrite Hlen. split; [done|].
  intros ax (i & Hi)%list_elem_of_lookup.
  destruct (lookup_lt_is_Some_2 groups i) as [grp Hgrp].
  { apply lookup_lt_Some in Hi. lia. }
  apply Haxes in Hgrp as (ax' & row & col & Hax' & _ & Hcreated).
  assert (ax' = ax) as -> by congruence.
  destruct Hcreated as (-> & _ & _ & _ & _ & -> & ->). cbn [fst snd].
  assert (∀ spec i n,
            clears_label spec i n = true ↔ spec = "all" ∧ i + 1 < n)
    as Hclear.
  { intros spec j n. unfold clears_label.
    rewrite andb_true_iff, !bool_decide_eq_true. split; intros [? ?];
      (split; [done|lia]). }
  split; [by destruct (clears_label _ row _); auto|].
  split; [by destruct (clears_label _ col _); auto|].
  rewrite <- !Hclear.
  split; destruct (clears_label _ _ _); split; done.
Qed.

Lemma X18_label_cleared_iff_witness :
  ∃ fig_axes,
    _init_axes ∅ [int 1; timeseries 2] "plot" None (ShareBool true)
               (ShareBool true) None None = Ok fig_axes
    ∧ length fig_axes = 2
    ∧ ∃ nrows ncols,
        default (length fig_axes, 1) None = (nrows, ncols)
        ∧ ∀ ax, ax ∈ fig_axes →
            (ax_xlabel ax = Drawn ∨ ax_xlabel ax = SetTo "")
            ∧ (ax_ylabel ax = Drawn ∨ ax_ylabel ax = SetTo "")
            ∧ (ax_xlabel ax = SetTo ""
               ↔ share_spec (ShareBool true) = "all"
                 ∧ (ax_pos ax).1 + 1 < nrows)
            ∧ (ax_ylabel ax = SetTo ""
               ↔ share_spec (ShareBool true) = "all"
                 ∧ (ax_pos ax).2 + 1 < ncols).
Proof.
  eexists. split; [reflexivity|]. split; [reflexivity|].
  exact (X18_label_cleared_iff ∅ [int 1; timeseries 2] "plot" None
           (ShareBool true) (ShareBool true) None None _ eq_refl).
Defined.

(** X19: without [geometry], with [separate] not given as false and
    share specifications among "none", "all", "row", "col" (or
    booleans), none of the checks of the constructor (grouping, grid,
    share table) raises, for every data: it builds one column of axes,
    one per group, the axes number [i] at [(i, 0)]. *)
Theorem X19_default_call_returns GPS_SCALES h data kw_xscale kw_figsize
  projection method sharex sharey separate :
  separate ≠ Some false →
  share_spec sharex ∈ share_keys → share_spec sharey ∈ share_keys →
  ∃ fig out,
    Plot_init GPS_SCALES h data kw_xscale kw_figsize projection method
              sharex sharey None separate = Ok fig
    ∧ _group_axes_data h data separate = Ok (h, out)
    ∧ length (fig_axes fig) = length out
    ∧ ∀ i ax, fig_axes fig !! i = Some ax → ax_pos ax = (i, 0).
Proof.
  intros Hsep Hx Hy. unfold Plot_init.
  destruct (group_axes_data_flat_returns h data) as [flat ->].
  rewrite bind_Ok.
  assert (∃ out, _group_axes_data h data separate = Ok (h, out))
    as [out Hout].
  { destruct separate as [[]|]; [|done|].
    - exists (own_group <$> data). apply group_axes_data_separated.
      by rewrite auto_separate_given.
    - apply group_axes_data_unspecified_returns. }
  cbn zeta.
  match goal with
  | |- context [_init_axes h data method ?xs sharex sharey None separate] =>
      destruct (init_axes_returns h data method xs sharex sharey None
                  separate h out (length out) 1 Hout eq_refl
                  ltac:(lia) Hx Hy) as [axs Haxs];
      rewrite Haxs
  end.
  rewrite bind_Ok. eexists _, out. split; [done|]. split; [done|].
  cbn [fig_axes].
  apply init_axes_Ok in Haxs
    as (h' & groups & nrows & ncols & Hg & Hgeo & _ & Hlen & Haxes).
  cbn [forced_separate] in Hg. rewrite Hout in Hg. injection Hg as <- <-.
  cbn in Hgeo. injection Hgeo as <- <-. split; [done|].
  intros i ax Hi.
  destruct (lookup_lt_is_Some_2 out i) as [grp Hgrp].
  { apply lookup_lt_Some in Hi. lia. }
  apply Haxes in Hgrp as (ax' & row & col & Hax' & Hpos & Hcreated).
  assert (ax' = ax) as -> by congruence.
  apply grid_positions_lookup_inv in Hpos as (_ & Hcol & ->).
  destruct Hcreated as (-> & _). f_equal; lia.
Qed.

Lemma X19_default_call_returns_witness :
  (None : option bool) ≠ Some false
  ∧ ∃ fig out,
      Plot_init ["auto-gps"] ∅ [PTuple [int 1; int 2]; int 3] None None None
                "plot" (ShareBool true) (ShareStr "col") None None = Ok fig
      ∧ _group_axes_data ∅ [PTuple [int 1; int 2]; int 3] None = Ok (∅, out)
      ∧ length (fig_axes fig) = length out
      ∧ ∀ i ax, fig_axes fig !! i = Some ax → ax_pos ax = (i, 0).
Proof.
  assert ((None : option bool) ≠ Some false) as Hsep by done.
  assert (share_spec (ShareBool true) ∈ share_keys) as Hx
    by (apply list_elem_of_In; cbn; auto).
  assert (share_spec (ShareStr "col") ∈ share_keys) as Hy
    by (apply list_elem_of_In; cbn; auto).
  split; [exact Hsep|].
  exact (X19_default_call_returns ["auto-gps"] ∅
           [PTuple [int 1; int 2]; int 3] None None None "plot"
           (ShareBool true) (ShareStr "col") None Hsep Hx Hy).
Defined.
